(** * RACAG: Swift code chunker and query command line

    A shallow embedding of [racag/chunking/code_chunker.py] and
    [racag/query_cli.py], and the properties of the specification that
    the two files decide.

    Conventions of the embedding:
    - a Python [str] whose characters are indexed (the decoded source
      text) is a list of Unicode code points, [list N];
    - a Python [bytes] value is a list of octets, [list N] with every
      element below 256;
    - a [str] that the code only compares and concatenates (node kinds,
      file names, messages) is a [string];
    - a call that may raise returns an [outcome]; [print] appends one
      entry to the list of lines written so far. *)

From Stdlib Require Import NArith ZArith Lia List Bool Ascii String.
From stdpp Require Import base tactics option list numbers strings pretty sorting.

Set Warnings "-register-all".

Open Scope string_scope.
Open Scope list_scope.
Open Scope N_scope.

(** One line feed, as a one-character string. *)
Definition LF : string := String "010" EmptyString.

(** ** Python values shared by both modules *)

(** The result of a call: it returns a value or raises. *)
Inductive outcome (E A : Type) : Type :=
| Returns (a : A)
| Raises (e : E).
Arguments Returns {E A} a.
Arguments Raises {E A} e.

(** The exceptions met while a source file is loaded.  [OSError] stands
    for the whole family (missing file, permissions, I/O) and carries
    its message. *)
Inductive exn : Type :=
| OSError (msg : string)
| UnicodeDecodeError
| UnicodeEncodeError.

(** The two text streams of the process. *)
Inductive stream : Type := stdout | stderr.

(** A computation that prints and may raise: the lines written, in
    order, and how the computation ended. *)
Definition io (E A : Type) : Type := list (stream * string) * outcome E A.

Definition raise {E A} (e : E) : io E A := ([], Raises e).
Definition print {E} (s : string) : io E unit := ([(stdout, s)], Returns tt).
Definition print_to {E} (f : stream) (s : string) : io E unit := ([(f, s)], Returns tt).

#[global] Instance io_ret {E} : MRet (io E) := λ A a, ([], Returns a).

#[global] Instance io_bind {E} : MBind (io E) := λ A B k m,
  match m with
  | (out, Returns a) => let '(out', r) := k a in (out ++ out', r)
  | (out, Raises e) => (out, Raises e)
  end.

(** [try: m except <handles>: handler]; an exception the clause does not
    name ([handles e = false]) keeps propagating. *)
Definition try_except {E A} (m : io E A) (handles : E → bool) (handler : E → io E A)
  : io E A :=
  match m with
  | (out, Raises e) =>
      if handles e
      then let '(out', r) := handler e in (out ++ out', r)
      else (out, Raises e)
  | _ => m
  end.

(** A call that prints nothing. *)
Definition call {E A} (r : outcome E A) : io E A := ([], r).

(** [seq[start:stop]] for non-negative bounds: Python clamps both bounds
    to the length and gives the empty sequence when [stop <= start]. *)
Definition slice {A} (l : list A) (start stop : N) : list A :=
  take (N.to_nat stop - N.to_nat start)%nat (drop (N.to_nat start) l).

(** [str.startswith]. *)
Fixpoint startswith (s p : string) : bool :=
  match p, s with
  | EmptyString, _ => true
  | String _ _, EmptyString => false
  | String a p', String b s' => if Ascii.eqb a b then startswith s' p' else false
  end.

(** [str.endswith]: [s] is [p], or what follows the first character of
    [s] ends with [p]. *)
Fixpoint endswith (s p : string) : bool :=
  String.eqb s p
  || match s with
     | EmptyString => false
     | String _ s' => endswith s' p
     end.

(** ** The UTF-8 codec of the interpreter

    [str.encode] and [bytes.decode] for the codec [utf-8], with the error
    handlers [strict] and [replace].  An invalid sequence is delimited as
    the interpreter delimits it: an invalid start byte alone, a lead byte
    with the continuation bytes accepted so far, or everything up to the
    end of the data when the data stops inside a sequence. *)
Module codec.

Inductive handler : Type := strict | replace.

(** U+FFFD, the replacement character. *)
Definition REPLACEMENT : N := 0xFFFD.

Definition is_surrogate (c : N) : bool := (0xD800 <=? c) && (c <? 0xE000).

(** A code point that a decoded text can hold. *)
Definition is_scalar (c : N) : bool := (c <? 0x110000) && negb (is_surrogate c).

Definition encode_char (c : N) : outcome exn (list N) :=
  if c <? 0x80 then Returns [c]
  else if c <? 0x800 then Returns [0xC0 + c / 64; 0x80 + c mod 64]
  else if is_surrogate c then Raises UnicodeEncodeError
  else if c <? 0x10000 then
    Returns [0xE0 + c / 4096; 0x80 + (c / 64) mod 64; 0x80 + c mod 64]
  else
    Returns [0xF0 + c / 262144; 0x80 + (c / 4096) mod 64;
             0x80 + (c / 64) mod 64; 0x80 + c mod 64].

(** [bytes(text, "utf8")]. *)
Fixpoint encode (text : list N) : outcome exn (list N) :=
  match text with
  | [] => Returns []
  | c :: text' =>
      match encode_char c, encode text' with
      | Returns b, Returns bs => Returns (b ++ bs)
      | Raises e, _ => Raises e
      | _, Raises e => Raises e
      end
  end.

Definition is_continuation (b : N) : bool := (0x80 <=? b) && (b <? 0xC0).

(** One decoded code point in front of the decoding of the rest. *)
Definition emit (c : N) (rest : outcome exn (list N))
  : outcome exn (list N) :=
  match rest with
  | Returns text => Returns (c :: text)
  | Raises e => Raises e
  end.

(** An invalid sequence in front of the decoding of the rest. *)
Definition invalid (errors : handler) (rest : outcome exn (list N))
  : outcome exn (list N) :=
  match errors with
  | strict => Raises UnicodeDecodeError
  | replace => emit REPLACEMENT rest
  end.

(** [data.decode("utf-8", errors)]. *)
Fixpoint decode (errors : handler) (data : list N) {struct data}
  : outcome exn (list N) :=
  match data with
  | [] => Returns []
  | ch :: s1 =>
      if ch <? 0x80 then emit ch (decode errors s1)
      else if ch <? 0xC2 then invalid errors (decode errors s1)
      else if ch <? 0xE0 then
        match s1 with
        | [] => invalid errors (Returns [])
        | ch2 :: s2 =>
            if is_continuation ch2
            then emit ((ch - 0xC0) * 64 + (ch2 - 0x80)) (decode errors s2)
            else invalid errors (decode errors s1)
        end
      else if ch <? 0xF0 then
        match s1 with
        | [] => invalid errors (Returns [])
        | ch2 :: s2 =>
            if negb (is_continuation ch2)
               || (if ch2 <? 0xA0 then ch =? 0xE0 else ch =? 0xED)
            then invalid errors (decode errors s1)
            else
              match s2 with
              | [] => invalid errors (Returns [])
              | ch3 :: s3 =>
                  if is_continuation ch3
                  then emit ((ch - 0xE0) * 4096 + (ch2 - 0x80) * 64 + (ch3 - 0x80))
                         (decode errors s3)
                  else invalid errors (decode errors s2)
              end
        end
      else if ch <? 0xF5 then
        match s1 with
        | [] => invalid errors (Returns [])
        | ch2 :: s2 =>
            if negb (is_continuation ch2)
               || (if ch2 <? 0x90 then ch =? 0xF0 else ch =? 0xF4)
            then invalid errors (decode errors s1)
            else
              match s2 with
              | [] => invalid errors (Returns [])
              | ch3 :: s3 =>
                  if negb (is_continuation ch3)
                  then invalid errors (decode errors s2)
                  else
                    match s3 with
                    | [] => invalid errors (Returns [])
                    | ch4 :: s4 =>
                        if is_continuation ch4
                        then emit ((ch - 0xF0) * 262144 + (ch2 - 0x80) * 4096
                                   + (ch3 - 0x80) * 64 + (ch4 - 0x80))
                               (decode errors s4)
                        else invalid errors (decode errors s3)
                    end
              end
        end
      else invalid errors (decode errors s1)
  end.

(** The newline translation of a file opened in text mode with the
    default [newline=None]: CR LF and a lone CR both read as LF. *)
Fixpoint universal_newlines (text : list N) : list N :=
  match text with
  | [] => []
  | c :: text' =>
      if c =? 13 then
        match text' with
        | [] => [10]
        | d :: text'' =>
            if d =? 10 then 10 :: universal_newlines text''
            else 10 :: universal_newlines text'
        end
      else c :: universal_newlines text'
  end.

(** The code points of an ASCII literal. *)
Definition text_of_string (s : string) : list N :=
  map N_of_ascii (list_ascii_of_string s).

End codec.

Module code_chunker.

(** *** The syntax tree handed back by the parser

    The fields are the ones the extractor reads from a tree-sitter node:
    [type], [start_byte], [end_byte], [start_point], [end_point] (row and
    column, both zero based) and [children]. *)
Inductive Node : Type :=
  mkNode (type : string) (start_byte end_byte : N)
         (start_point end_point : N * N) (children : list Node).

Definition type (n : Node) : string := let 'mkNode t _ _ _ _ _ := n in t.
Definition start_byte (n : Node) : N := let 'mkNode _ b _ _ _ _ := n in b.
Definition end_byte (n : Node) : N := let 'mkNode _ _ e _ _ _ := n in e.
Definition start_point (n : Node) : N * N := let 'mkNode _ _ _ p _ _ := n in p.
Definition end_point (n : Node) : N * N := let 'mkNode _ _ _ _ p _ := n in p.
Definition children (n : Node) : list Node := let 'mkNode _ _ _ _ _ c := n in c.

(** Induction over a tree with the property available for all children. *)
Fixpoint Node_children_ind (P : Node → Prop)
    (step : ∀ t sb eb sp ep cs, Forall P cs → P (mkNode t sb eb sp ep cs))
    (n : Node) {struct n} : P n :=
  match n with
  | mkNode t sb eb sp ep cs =>
      step t sb eb sp ep cs
        ((fix all (l : list Node) : Forall P l :=
            match l with
            | [] => @List.Forall_nil Node P
            | c :: l' => @List.Forall_cons Node P c l' (Node_children_ind P step c) (all l')
            end) cs)
  end.

(** The record appended for every extracted declaration; the field names
    are the keys of the dictionary built in [recurse]. *)
Record Chunk : Type := mkChunk {
  chunk_id : string;
  chunk_text : list N;
  language : string;
  framework : string;
  module : string;
  function : option string;
  file_path : string;
  start_line : N;
  end_line : N;
  tags : list string;
  lines : string
}.

(** What the extractor reads from [pathlib.Path(file_path)]: [path.name],
    [path.stem] and [str(path)]. *)
Record PurePath : Type := mkPath {
  name : string;
  stem : string;
  str : string
}.

(** [s.replace(old, new)]: every non-overlapping occurrence of [old],
    found left to right, is replaced.  [skip] counts the characters of
    an occurrence that are still to be dropped. *)
Fixpoint replace_from (old new : string) (skip : nat) (s : string) : string :=
  match s with
  | EmptyString => EmptyString
  | String c s' =>
      match skip with
      | S k => replace_from old new k s'
      | O =>
          if startswith s old
          then new +:+ replace_from old new (String.length old - 1) s'
          else String c (replace_from old new O s')
      end
  end.

(** Python inserts [new] around every character when [old] is empty. *)
Fixpoint intersperse_str (new s : string) : string :=
  match s with
  | EmptyString => new
  | String c s' => new +:+ String c (intersperse_str new s')
  end.

Definition replace (s old new : string) : string :=
  match old with
  | EmptyString => intersperse_str new s
  | _ => replace_from old new O s
  end.

(** The kinds tested in [recurse] ([node.type in [...]]). *)
Definition extractable_kinds : list string :=
  ["class_declaration"; "struct_declaration"; "function_declaration"].

Definition is_extractable (kind : string) : bool :=
  existsb (String.eqb kind) extractable_kinds.

Section extractor.
(** The two variables the nested functions close over. *)
Variable path : PurePath.
Variable code : list N.

Definition get_text (node : Node) : list N :=
  slice code (start_byte node) (end_byte node).

(** The dictionary built for a matching node. *)
Definition make_chunk (node : Node) : Chunk :=
  let chunk_text := get_text node in
  let chunk_id := name path +:+ "::" +:+ type node +:+ "_" +:+ pretty (fst (start_point node)) in
  let start_line := fst (start_point node) + 1 in
  let end_line := fst (end_point node) + 1 in
  let chunk_type := replace (type node) "_declaration" "" in
  {| chunk_id := chunk_id;
     chunk_text := chunk_text;
     language := "swift";
     framework := "swiftui";
     module := stem path;
     function := None;
     file_path := str path;
     start_line := start_line;
     end_line := end_line;
     tags := [chunk_type];
     lines := pretty start_line +:+ "-" +:+ pretty end_line |}.

(** [recurse] appends to the list [chunks] of the enclosing call; the
    list is threaded through here. *)
Fixpoint recurse (node : Node) (depth : N) (chunks : list Chunk) {struct node}
  : list Chunk :=
  let chunks :=
    if is_extractable (type node)
    then chunks ++ [make_chunk node]
    else chunks in
  fold_left (fun chunks child => recurse child (depth + 1) chunks)
    (children node) chunks.
End extractor.

(** *** What the module takes from outside

    [Path] is [pathlib.Path]; [read_bytes] is the file system, giving
    the octets stored under a path or the message of the [OSError] that
    opening or reading it raises; [parse] is
    [parser.parse(data).root_node] for the Swift grammar. *)
Class Platform : Type := {
  Path : string → PurePath;
  read_bytes : string → outcome string (list N);
  parse : list N → Node
}.

Section loader.
Context {platform : Platform}.

(** [path.read_text(encoding="utf-8", errors=errors)]. *)
Definition read_text (path : PurePath) (errors : codec.handler) : io exn (list N) :=
  match read_bytes (str path) with
  | Raises msg => raise (OSError msg)
  | Returns data =>
      match codec.decode errors data with
      | Returns text => mret (codec.universal_newlines text)
      | Raises e => raise e
      end
  end.

Definition is_UnicodeDecodeError (e : exn) : bool :=
  match e with UnicodeDecodeError => true | _ => false end.

Definition extract_code_chunks (file_path : string) : io exn (list Chunk) :=
  let path := Path file_path in
  code ← try_except (read_text path codec.strict) is_UnicodeDecodeError
            (λ _, code ← read_text path codec.replace;
                  print ("⚠️ Non-UTF8 bytes replaced in " +:+ file_path);;
                  mret code);
  data ← call (codec.encode code);
  let root_node := parse data in
  mret (recurse path code root_node 0 []).
End loader.

End code_chunker.

Module query_cli.

(** What a call into the retrieval layer, or [sys.exit], can raise.
    [Exception message] is any instance of [Exception] (or of a class
    derived from it) whose [str()] is [message]; the other two derive
    from [BaseException] only. *)
Inductive raised : Type :=
| Exception (message : string)
| KeyboardInterrupt
| SystemExit (code : Z).

(** [isinstance(e, Exception)], the test of [except Exception]. *)
Definition is_Exception (e : raised) : bool :=
  match e with
  | Exception _ => true
  | KeyboardInterrupt | SystemExit _ => false
  end.

(** [str(e)]. *)
Definition exception_str (e : raised) : string :=
  match e with
  | Exception message => message
  | KeyboardInterrupt => ""
  | SystemExit code => pretty code
  end.

(** A record of the search layer as the listing reads it: a dictionary
    whose keys ["score"], ["metadata"], ["file_path"] and ["lines"] may
    be missing. *)
Record Metadata : Type := mkMetadata {
  file_path : option string;
  lines : option string
}.

Record Hit (Score : Type) : Type := mkHit {
  score : option Score;
  metadata : option Metadata
}.
Arguments mkHit {Score} score metadata.
Arguments score {Score} h.
Arguments metadata {Score} h.

(** The dictionary returned by [query_racag_cli]; the key ["error"] is
    present in the failure case only. *)
Record Response (Score : Type) : Type := mkResponse {
  success : bool;
  query : string;
  results_count : N;
  results : list (Hit Score);
  error : option string;
  message : string
}.
Arguments mkResponse {Score} success query results_count results error message.
Arguments success {Score} r.
Arguments query {Score} r.
Arguments results_count {Score} r.
Arguments results {Score} r.
Arguments error {Score} r.
Arguments message {Score} r.

(** The namespace returned by [parser.parse_args()]. *)
Inductive Format : Type := json | text.

Record Args : Type := mkArgs {
  arg_query : string;
  arg_top_k : Z;
  arg_format : Format
}.

(** *** What the module takes from outside

    [embed_query] and [semantic_search] are the two functions imported
    from [racag.retrieval]; [format_3f] is the format specification
    [.3f] applied to a score, and [json_dumps] is
    [json.dumps(result, indent=2)]. *)
Class Retrieval : Type := {
  embedding : Type;
  Score : Type;
  embed_query : string → outcome raised embedding;
  semantic_search : embedding → Z → outcome raised (list (Hit Score));
  format_3f : Score → string;
  json_dumps : Response Score → string
}.

(** [enumerate(l, start)]. *)
Fixpoint enumerate {A} (l : list A) (start : N) : list (N * A) :=
  match l with
  | [] => []
  | x :: l' => (start, x) :: enumerate l' (start + 1)
  end.

(** [for x in l: body(x)]. *)
Fixpoint for_each {E A} (l : list A) (body : A → io E unit) : io E unit :=
  match l with
  | [] => mret tt
  | x :: l' => body x;; for_each l' body
  end.

(** [sys.exit(code)]. *)
Definition sys_exit {A} (code : Z) : io raised A := raise (SystemExit code).

Section cli.
Context {retrieval : Retrieval}.

Definition query_racag_cli (question : string) (top_k : Z)
  : io raised (Response Score) :=
  try_except
    (query_embedding ← call (embed_query question);
     results ← call (semantic_search query_embedding top_k);
     mret {| success := true;
             query := question;
             results_count := N.of_nat (length results);
             results := results;
             error := None;
             message := "Retrieved " +:+ pretty (N.of_nat (length results))
                        +:+ " relevant chunks" |})
    is_Exception
    (λ e, mret {| success := false;
                  query := question;
                  results_count := 0;
                  results := [];
                  error := Some (exception_str e);
                  message := "Query failed: " +:+ exception_str e |}).

(** [f"{chunk.get('score', 0):.3f}"]; the default is the integer 0. *)
Definition format_score (s : option Score) : string :=
  match s with
  | Some x => format_3f x
  | None => "0.000"
  end.

(** The body of the loop over the listed entries. *)
Definition print_entry (entry : N * Hit Score) : io raised unit :=
  let '(i, chunk) := entry in
  let meta := default (mkMetadata None None) (metadata chunk) in
  print (pretty i +:+ ". [" +:+ format_score (score chunk) +:+ "] "
         +:+ default "unknown" (file_path meta));;
  print ("   Lines " +:+ default "?-?" (lines meta));;
  print "".

Definition main (args : Args) : io raised unit :=
  result ← query_racag_cli (arg_query args) (arg_top_k args);
  match arg_format args with
  | json => print (json_dumps result)
  | text =>
      if success result then
        print ("Query: " +:+ query result);;
        print ("Results: " +:+ pretty (results_count result) +:+ LF);;
        for_each (enumerate (slice (results result) 0 10) 1) print_entry
      else
        print_to stderr ("Error: " +:+ message result);;
        sys_exit 1
  end;;
  sys_exit (if success result then 0 else 1).
End cli.

End query_cli.

(** ** Sample inputs

    Swift files with the trees the parser gives for them, an empty file,
    a file that is not valid UTF-8, and a platform that serves them.
    Only the kinds, byte offsets and rows of the declarations matter
    below; the tokens under them are given for the first file only. *)
Module samples.
Import code_chunker.

(** [Demo.swift]: a class with one method, then a function.
<<
class A {
  func g() {}
}
func h() {
}
>> *)
Definition demo_text : list N :=
  codec.text_of_string
    ("class A {" +:+ LF +:+ "  func g() {}" +:+ LF +:+ "}" +:+ LF
     +:+ "func h() {" +:+ LF +:+ "}" +:+ LF).

Definition demo_method : Node :=
  mkNode "function_declaration" 12 23 (1, 2) (1, 13)
    [ mkNode "func" 12 16 (1, 2) (1, 6) [];
      mkNode "simple_identifier" 17 18 (1, 7) (1, 8) [];
      mkNode "(" 18 19 (1, 8) (1, 9) [];
      mkNode ")" 19 20 (1, 9) (1, 10) [];
      mkNode "function_body" 21 23 (1, 11) (1, 13)
        [ mkNode "{" 21 22 (1, 11) (1, 12) [];
          mkNode "}" 22 23 (1, 12) (1, 13) [] ] ].

Definition demo_class : Node :=
  mkNode "class_declaration" 0 25 (0, 0) (2, 1)
    [ mkNode "class" 0 5 (0, 0) (0, 5) [];
      mkNode "type_identifier" 6 7 (0, 6) (0, 7) [];
      mkNode "class_body" 8 25 (0, 8) (2, 1)
        [ mkNode "{" 8 9 (0, 8) (0, 9) [];
          demo_method;
          mkNode "}" 24 25 (2, 0) (2, 1) [] ] ].

Definition demo_function : Node :=
  mkNode "function_declaration" 26 38 (3, 0) (4, 1)
    [ mkNode "func" 26 30 (3, 0) (3, 4) [];
      mkNode "simple_identifier" 31 32 (3, 5) (3, 6) [];
      mkNode "(" 32 33 (3, 6) (3, 7) [];
      mkNode ")" 33 34 (3, 7) (3, 8) [];
      mkNode "function_body" 35 38 (3, 9) (4, 1)
        [ mkNode "{" 35 36 (3, 9) (3, 10) [];
          mkNode "}" 37 38 (4, 0) (4, 1) [] ] ].

Definition demo_tree : Node :=
  mkNode "source_file" 0 39 (0, 0) (5, 0) [demo_class; demo_function].

(** [Late.swift]: nine empty lines, then a function of five lines that
    starts on source line 10. *)
Definition late_text : list N :=
  (replicate 9 10 ++ codec.text_of_string ("func f() {" +:+ LF +:+ LF +:+ LF +:+ LF
                                          +:+ "}" +:+ LF)).

Definition late_function : Node :=
  mkNode "function_declaration" 9 24 (9, 0) (13, 1) [].

Definition late_tree : Node :=
  mkNode "source_file" 9 25 (9, 0) (14, 0) [late_function].

(** [Cafe.swift]: a comment holding one two-byte character, then a
    function.  In the encoded file the comment is 5 bytes long, so the
    function occupies bytes 6 to 17; in the decoded text it occupies
    characters 5 to 16.
<<
// é
func f() {}
>> *)
Definition cafe_text : list N :=
  (codec.text_of_string "// " ++ [0xE9]
   ++ codec.text_of_string (LF +:+ "func f() {}" +:+ LF)).

Definition cafe_function : Node :=
  mkNode "function_declaration" 6 17 (1, 0) (1, 11) [].

Definition cafe_tree : Node :=
  mkNode "source_file" 0 18 (0, 0) (2, 0)
    [ mkNode "comment" 0 5 (0, 0) (0, 5) []; cafe_function ].

(** [Plain.swift]: one import, no declaration of an extracted kind. *)
Definition plain_text : list N :=
  codec.text_of_string ("import Foundation" +:+ LF).

Definition plain_tree : Node :=
  mkNode "source_file" 0 18 (0, 0) (1, 0)
    [ mkNode "import_declaration" 0 17 (0, 0) (0, 17)
        [ mkNode "import" 0 6 (0, 0) (0, 6) [];
          mkNode "identifier" 7 17 (0, 7) (0, 17) [] ] ].

(** The tree of the empty file. *)
Definition empty_tree : Node := mkNode "source_file" 0 0 (0, 0) (0, 0) [].

(** [Broken.swift]: the byte 0xFF (never valid in UTF-8) after [let]. *)
Definition broken_bytes : list N :=
  (codec.text_of_string "let " ++ [0xFF] ++ [10]).

(** The bytes of a text known to encode. *)
Definition bytes_of (text : list N) : list N :=
  match codec.encode text with
  | Returns data => data
  | Raises _ => []
  end.

Definition files : list (string * list N) :=
  [ ("Demo.swift", bytes_of demo_text);
    ("Late.swift", bytes_of late_text);
    ("Cafe.swift", bytes_of cafe_text);
    ("Plain.swift", bytes_of plain_text);
    ("Empty.swift", []);
    ("Broken.swift", broken_bytes) ].

Definition trees : list (list N * Node) :=
  [ (bytes_of demo_text, demo_tree);
    (bytes_of late_text, late_tree);
    (bytes_of cafe_text, cafe_tree);
    (bytes_of plain_text, plain_tree) ].

(** Look a key up in an association list. *)
Fixpoint assoc {K V} `{EqDecision K} (k : K) (l : list (K * V)) : option V :=
  match l with
  | [] => None
  | (k', v) :: l' => if decide (k = k') then Some v else assoc k l'
  end.

(** A file name in the current directory with the suffix [.swift]. *)
Definition swift_path (file_path : string) : PurePath :=
  {| name := file_path;
     stem := String.substring 0 (String.length file_path - 6) file_path;
     str := file_path |}.

#[local] Instance platform : Platform := {|
  Path := swift_path;
  read_bytes p :=
    match assoc p files with
    | Some data => Returns data
    | None => Raises ("[Errno 2] No such file or directory: '" +:+ p +:+ "'")
    end;
  parse data := default empty_tree (assoc data trees)
|}.

End samples.

(** ** The vocabulary of the specification *)
Module spec.
Import code_chunker.

(** The public contract of the extractor,
    [extract(parsed_tree, source_text, file_identity)]: the walk started
    at the root with no chunk collected yet. *)
Definition extract (parsed_tree : Node) (source_text : list N)
    (file_identity : PurePath) : list Chunk :=
  recurse file_identity source_text parsed_tree 0 [].

(** The nodes of a tree in depth-first pre-order: a node, then the
    subtrees of its children from first to last. *)
Fixpoint preorder (node : Node) : list Node :=
  node :: flat_map preorder (children node).

(** The nodes of an extractable kind, in pre-order. *)
Definition declarations (root : Node) : list Node :=
  filter (λ node, is_extractable (type node) = true) (preorder root).

(** [inner] lies strictly inside [outer]: it is in the subtree of one of
    the children of [outer]. *)
Definition nested_in (inner outer : Node) : Prop :=
  ∃ child, child ∈ children outer ∧ inner ∈ preorder child.

Definition start_row (node : Node) : N := fst (start_point node).
Definition end_row (node : Node) : N := fst (end_point node).

(** Consecutive siblings do not run backwards. *)
Fixpoint siblings_in_order (nodes : list Node) : bool :=
  match nodes with
  | [] => true
  | first :: rest =>
      match rest with
      | [] => true
      | second :: _ => (end_row first <=? start_row second) && siblings_in_order rest
      end
  end.

(** What the parser guarantees about rows: a node does not end before it
    starts, a child lies within its parent, and the children of a node
    follow each other in source order. *)
Fixpoint rows_consistent (node : Node) : bool :=
  (start_row node <=? end_row node)
  && forallb (λ child, (start_row node <=? start_row child)
                       && (end_row child <=? end_row node)
                       && rows_consistent child) (children node)
  && siblings_in_order (children node).

(** The identity of a declaration according to the specification: its
    kind and its zero-based start line. *)
Definition declaration_key (node : Node) : string * N :=
  (type node, start_row node).

(** The identifier built from a kind and a row. *)
Definition identifier (path : PurePath) (key : string * N) : string :=
  name path +:+ "::" +:+ fst key +:+ "_" +:+ pretty (snd key).

(** Nodes ordered by the row they start on. *)
Definition starts_before (n m : Node) : Prop := start_row n ≤ start_row m.

(** The text the parser saw for a node: the bytes of the encoded source
    between the byte offsets of the node. *)
Definition node_bytes (data : list N) (node : Node) : list N :=
  slice data (start_byte node) (end_byte node).

(** [chunk_text] is the exact source substring of [node]: encoding it
    gives back the bytes of the node. *)
Definition byte_exact (data : list N) (node : Node) (chunk : Chunk) : Prop :=
  codec.encode (chunk_text chunk) = Returns (node_bytes data node).

(** Stripping one trailing [suffix], as the specification words the
    normalisation of a kind. *)
Definition strip_suffix (s suffix : string) : string :=
  if endswith s suffix
  then String.substring 0 (String.length s - String.length suffix) s
  else s.

(** The text the loader hands on for a file holding [data]: the strict
    decoding when there is one, the decoding with replacement otherwise,
    after newline translation. *)
Definition decoded_text (data : list N) : list N :=
  match codec.decode codec.strict data with
  | Returns text => codec.universal_newlines text
  | Raises _ =>
      match codec.decode codec.replace data with
      | Returns text => codec.universal_newlines text
      | Raises _ => []
      end
  end.

(** A run on [file_path] gets as far as the walk: the file can be read,
    [code] is the text the loader hands on for its bytes, and [root] is
    the tree the parser gives for the encoding of that text. *)
Definition parsed {platform : Platform} (file_path : string) (code : list N)
    (root : Node) : Prop :=
  ∃ data encoded,
    read_bytes (str (Path file_path)) = Returns data
    ∧ code = decoded_text data
    ∧ codec.encode code = Returns encoded
    ∧ root = parse encoded.

(** The diagnostic printed when bytes were replaced. *)
Definition diagnostics (file_path : string) (data : list N) : list (stream * string) :=
  match codec.decode codec.strict data with
  | Returns _ => []
  | Raises _ => [(stdout, "⚠️ Non-UTF8 bytes replaced in " +:+ file_path)]
  end.

(** [c in s] for one character. *)
Fixpoint has_char (c : ascii) (s : string) : bool :=
  match s with
  | EmptyString => false
  | String d s' => Ascii.eqb c d || has_char c s'
  end.

End spec.

(** ** The vocabulary of the query command *)
Module listing.
Import query_cli.

(** The failure result for a question and the text of the error. *)
Definition failure {Score} (question message : string) : Response Score :=
  {| success := false;
     query := question;
     results_count := 0;
     results := [];
     error := Some message;
     message := "Query failed: " +:+ message |}.

(** The three lines of the listing for the entry of a given rank: rank,
    score and file path; line range; an empty line. *)
Definition entry_lines {retrieval : Retrieval} (rank : N) (hit : Hit Score)
  : list (stream * string) :=
  let meta := default (mkMetadata None None) (metadata hit) in
  [ (stdout, pretty rank +:+ ". [" +:+ format_score (score hit) +:+ "] "
             +:+ default "unknown" (file_path meta));
    (stdout, "   Lines " +:+ default "?-?" (lines meta));
    (stdout, "") ].

(** The two lines above the entries. *)
Definition header_lines (question : string) (count : nat) : list (stream * string) :=
  [ (stdout, "Query: " +:+ question);
    (stdout, "Results: " +:+ pretty (N.of_nat count) +:+ LF) ].

(** The display limit of the listing. *)
Definition DISPLAY_LIMIT : nat := 10.

(** A retrieval layer for the examples: scores are thousandths, the
    empty question makes the embedding fail, the search gives the first
    [top_k] of twelve records, and the structured output is abridged. *)
Definition thousandths (s : N) : string :=
  pretty (s / 1000) +:+ "."
  +:+ pretty (s / 100 mod 10) +:+ pretty (s / 10 mod 10) +:+ pretty (s mod 10).

Definition sample_hit (i : nat) : Hit N :=
  mkHit (Some (N.of_nat (990 - 40 * i)))
    (Some (mkMetadata (Some ("File" +:+ pretty i +:+ ".swift")) (Some "1-3"))).

Definition sample_retrieval : Retrieval := {|
  embedding := string;
  Score := N;
  embed_query q :=
    if String.eqb q "" then Raises (Exception "empty query") else Returns q;
  semantic_search _ top_k := Returns (take (Z.to_nat top_k) (sample_hit <$> seq 0 12));
  format_3f := thousandths;
  json_dumps r := "{query: " +:+ query r +:+ ", message: " +:+ message r +:+ "}"
|}.

(** One of the two calls of a query raises [e]: the embedding, or the
    search after the embedding returned. *)
Definition fails_with {retrieval : Retrieval} (question : string) (top_k : Z)
    (e : raised) : Prop :=
  embed_query question = Raises e
  ∨ ∃ v, embed_query question = Returns v ∧ semantic_search v top_k = Raises e.

(** A retrieval layer that is interrupted while it embeds. *)
Definition interrupted_retrieval : Retrieval := {|
  embedding := string;
  Score := N;
  embed_query _ := Raises KeyboardInterrupt;
  semantic_search _ _ := Returns [];
  format_3f := thousandths;
  json_dumps r := "{query: " +:+ query r +:+ ", message: " +:+ message r +:+ "}"
|}.

(** A retrieval layer whose records lack keys: the first has none, the
    second has a score and a line range but no file path. *)
Definition sparse_retrieval : Retrieval := {|
  embedding := string;
  Score := N;
  embed_query q := Returns q;
  semantic_search _ _ :=
    Returns [ mkHit None None;
              mkHit (Some 500) (Some (mkMetadata None (Some "4-9"))) ];
  format_3f := thousandths;
  json_dumps r := "{query: " +:+ query r +:+ ", message: " +:+ message r +:+ "}"
|}.

End listing.

(** ** A file with DOS line ends

    [Dos.swift] holds [func f() {}] followed by CR LF; read in text
    mode it is the same text followed by LF alone, and that is what the
    parser sees. *)
Module dos_sample.
Import code_chunker.

Definition dos_bytes : list N :=
  codec.text_of_string "func f() {}" ++ [13; 10].

Definition dos_tree : Node :=
  mkNode "source_file" 0 12 (0, 0) (1, 0)
    [ mkNode "function_declaration" 0 11 (0, 0) (0, 11) [] ].

Definition dos_platform : Platform := {|
  Path := samples.swift_path;
  read_bytes p :=
    if String.eqb p "Dos.swift" then Returns dos_bytes
    else Raises ("[Errno 2] No such file or directory: '" +:+ p +:+ "'");
  parse _ := dos_tree
|}.

End dos_sample.

(** ** Properties of the codec *)
Module codec_properties.
Import codec.

Lemma is_continuation_true b : is_continuation b = true ↔ 0x80 ≤ b < 0xC0.
Proof. unfold is_continuation. rewrite andb_true_iff, N.leb_le, N.ltb_lt. done. Qed.

Lemma is_scalar_true c :
  is_scalar c = true ↔ c < 0x110000 ∧ ¬ (0xD800 ≤ c < 0xE000).
Proof.
  unfold is_scalar, is_surrogate.
  rewrite andb_true_iff, negb_true_iff, andb_false_iff, N.ltb_lt, N.leb_gt, N.ltb_ge.
  lia.
Qed.

(** The second byte of a sequence was accepted: it is a continuation
    byte outside the range that [low] or [high] forbids for the lead
    byte. *)
Lemma second_byte_accepted ch ch2 bound low high :
  negb (is_continuation ch2) || (if ch2 <? bound then ch =? low else ch =? high) = false →
  0x80 ≤ ch2 < 0xC0 ∧ (ch2 < bound → ch ≠ low) ∧ (bound ≤ ch2 → ch ≠ high).
Proof.
  rewrite orb_false_iff, negb_false_iff, is_continuation_true.
  intros [? Hif]. split; [done|].
  destruct (N.ltb_spec ch2 bound); apply N.eqb_neq in Hif; split; (done || lia).
Qed.

(** Turn the tests recorded in the context into arithmetic. *)
Ltac tests_to_arith :=
  repeat match goal with
         | H : (_ <? _) = true |- _ => apply N.ltb_lt in H
         | H : (_ <? _) = false |- _ => apply N.ltb_ge in H
         | H : is_continuation _ = true |- _ => apply is_continuation_true in H
         | H : negb (is_continuation _) = false |- _ =>
             apply negb_false_iff, is_continuation_true in H
         | H : negb (is_continuation _) || _ = false |- _ =>
             apply second_byte_accepted in H as (? & ? & ?)
         end.

(** Open the next test or the next look at the data in a hypothesis
    about [decode]. *)
Ltac decode_branch H :=
  match type of H with
  | context [if ?b then _ else _] => destruct b eqn:?
  | context [match ?l with [] => _ | _ :: _ => _ end] => is_var l; destruct l
  end.

Lemma emit_Returns c rest text :
  emit c rest = Returns text ↔ ∃ text', rest = Returns text' ∧ text = c :: text'.
Proof.
  destruct rest; cbn; split.
  - intros [= <-]. eauto.
  - by intros (? & [= ->] & ->).
  - done.
  - by intros (? & ? & _).
Qed.

Lemma invalid_Returns errors rest text :
  invalid errors rest = Returns text ↔
  errors = replace ∧ ∃ text', rest = Returns text' ∧ text = REPLACEMENT :: text'.
Proof.
  destruct errors; cbn [invalid].
  - split; [done|]. by intros [? _].
  - rewrite emit_Returns. tauto.
Qed.

(** Whatever the error handler, a decoded text holds scalar values only:
    no surrogates and nothing above U+10FFFF. *)
Lemma decode_scalar errors data text :
  decode errors data = Returns text → Forall (λ c, is_scalar c = true) text.
Proof.
  remember (length data) as n eqn:Hn. revert data text Hn.
  induction n as [n IH] using lt_wf_ind. intros data text -> Hdec.
  assert (∀ rest text', (length rest < length data)%nat →
            decode errors rest = Returns text' →
            Forall (λ c, is_scalar c = true) text') as IH'.
  { intros rest text' Hlen. by apply (IH _ Hlen). }
  clear IH. destruct data as [|ch s1]; [by injection Hdec as <-|].
  cbn [decode] in Hdec.
  repeat decode_branch Hdec.
  all: repeat
         match goal with
         | H : emit _ _ = Returns _ |- _ =>
             apply emit_Returns in H as (? & H & ->)
         | H : invalid _ _ = Returns _ |- _ =>
             apply invalid_Returns in H as (-> & ? & H & ->)
         | H : Returns _ = Returns _ |- _ => injection H as <-
         end.
  all: constructor;
    [ first [ reflexivity | tests_to_arith; apply is_scalar_true; lia ]
    | first [ by constructor | eapply IH'; [|eassumption]; cbn [length]; lia ] ].
Qed.

(** Decoding with replacement never raises. *)
Lemma decode_replace_returns data : ∃ text, decode replace data = Returns text.
Proof.
  remember (length data) as n eqn:Hn. revert data Hn.
  induction n as [n IH] using lt_wf_ind. intros data ->.
  assert (∀ rest, (length rest < length data)%nat →
            ∃ text, decode replace rest = Returns text) as IH'.
  { intros rest Hlen. by apply (IH _ Hlen). }
  clear IH. destruct data as [|ch s1]; [by eexists|].
  cbn [decode invalid].
  repeat match goal with
         | |- context [if ?b then _ else _] => destruct b
         | |- context [match ?l with [] => _ | _ :: _ => _ end] => is_var l; destruct l
         end.
  all: try (by eexists).
  all: match goal with
       | |- ∃ text, emit _ (decode replace ?rest) = _ =>
           destruct (IH' rest) as [? ->]; [cbn [length]; lia|by eexists]
       end.
Qed.

(** A strict decoding, when there is one, is also the decoding with
    replacement: nothing is replaced in valid data. *)
Lemma decode_strict_replace data text :
  decode strict data = Returns text → decode replace data = Returns text.
Proof.
  remember (length data) as n eqn:Hn. revert data text Hn.
  induction n as [n IH] using lt_wf_ind. intros data text -> Hdec.
  assert (∀ rest text', (length rest < length data)%nat →
            decode strict rest = Returns text' →
            decode replace rest = Returns text') as IH'.
  { intros rest text' Hlen. by apply (IH _ Hlen). }
  clear IH. destruct data as [|ch s1]; [done|].
  cbn [decode] in Hdec |- *.
  repeat decode_branch Hdec.
  all: try (by apply invalid_Returns in Hdec as [? _]).
  all: apply emit_Returns in Hdec as (? & Hdec & ->).
  all: match type of Hdec with
       | decode strict ?rest = Returns ?text' =>
           rewrite (IH' rest text'); [done|cbn [length]; lia|done]
       end.
Qed.

(** Where the strict decoding raises, the decoding with replacement
    holds the replacement character. *)
Lemma decode_replace_marks data e :
  decode strict data = Raises e →
  ∃ text, decode replace data = Returns text ∧ REPLACEMENT ∈ text.
Proof.
  remember (length data) as n eqn:Hn. revert data Hn.
  induction n as [n IH] using lt_wf_ind. intros data -> Hdec.
  assert (∀ rest, (length rest < length data)%nat →
            decode strict rest = Raises e →
            ∃ text, decode replace rest = Returns text ∧ REPLACEMENT ∈ text) as IH'.
  { intros rest Hlen. by apply (IH _ Hlen). }
  clear IH. destruct data as [|ch s1]; [done|].
  cbn [decode invalid] in Hdec |- *.
  repeat decode_branch Hdec.
  all: try match goal with
           | |- ∃ text, emit REPLACEMENT (decode replace ?rest) = _ ∧ _ =>
               destruct (decode_replace_returns rest) as [? ->];
               eexists; split; [done|by left]
           | |- ∃ text, emit REPLACEMENT (Returns _) = _ ∧ _ =>
               eexists; split; [done|by left]
           end.
  all: match type of Hdec with
       | emit _ (decode strict ?rest) = _ =>
           destruct (decode strict rest) as [|e'] eqn:Hrest; [done|];
           injection Hdec as ->;
           destruct (IH' rest) as (? & -> & ?); [cbn [length]; lia|done|];
           eexists; split; [done|by right]
       end.
Qed.

(** Decoding raises nothing but [UnicodeDecodeError]. *)
Lemma decode_raises errors data e :
  decode errors data = Raises e → e = UnicodeDecodeError.
Proof.
  remember (length data) as n eqn:Hn. revert data e Hn.
  induction n as [n IH] using lt_wf_ind. intros data e -> Hdec.
  assert (∀ rest, (length rest < length data)%nat →
            decode errors rest = Raises e → e = UnicodeDecodeError) as IH'.
  { intros rest Hlen. by apply (IH _ Hlen). }
  clear IH. destruct data as [|ch s1]; [done|]. cbn [decode] in Hdec.
  repeat decode_branch Hdec.
  all: destruct errors; cbn [invalid] in Hdec; try (by injection Hdec as <-).
  all: try (cbn [emit] in Hdec; discriminate Hdec).
  all: match type of Hdec with
       | emit _ (decode _ ?rest) = _ =>
           destruct (decode _ rest) as [|e'] eqn:Hrest; [done|];
           injection Hdec as <-; apply (IH' rest); [cbn [length]; lia|done]
       end.
Qed.

(** Newline translation adds nothing but line feeds. *)
Lemma elem_of_universal_newlines text c :
  c ∈ universal_newlines text → c = 10 ∨ c ∈ text.
Proof.
  remember (length text) as n eqn:Hn. revert text Hn.
  induction n as [n IH] using lt_wf_ind. intros text -> Hc.
  assert (∀ rest, (length rest < length text)%nat →
            c ∈ universal_newlines rest → c = 10 ∨ c ∈ rest) as IH'.
  { intros rest Hlen. by apply (IH _ Hlen). }
  clear IH. destruct text as [|a text']; [by apply elem_of_nil in Hc|].
  cbn [universal_newlines] in Hc.
  destruct (a =? 13).
  - destruct text' as [|d text''].
    + apply list_elem_of_singleton in Hc. by left.
    + destruct (d =? 10); apply elem_of_cons in Hc as [->|Hc]; try (by left).
      * destruct (IH' text'') as [?|?]; [cbn [length]; lia|done|by left|].
        right. by do 2 right.
      * destruct (IH' (d :: text'')) as [?|?]; [cbn [length]; lia|done|by left|].
        right. by right.
  - apply elem_of_cons in Hc as [->|Hc]; [right; by left|].
    destruct (IH' text') as [?|?]; [cbn [length]; lia|done|by left|].
    right. by right.
Qed.

Lemma universal_newlines_scalar text :
  Forall (λ c, is_scalar c = true) text →
  Forall (λ c, is_scalar c = true) (universal_newlines text).
Proof.
  rewrite !Forall_forall. intros Htext c [->|Hc]%elem_of_universal_newlines; auto.
Qed.

(** Scalar values always encode. *)
Lemma encode_scalar text :
  Forall (λ c, is_scalar c = true) text → ∃ data, encode text = Returns data.
Proof.
  induction 1 as [|c text Hc _ [data IH]]; [by eexists|].
  cbn [encode]. rewrite IH.
  apply is_scalar_true in Hc as [_ Hc].
  unfold encode_char, is_surrogate.
  destruct (c <? 0x80); [by eexists|]. destruct (c <? 0x800); [by eexists|].
  destruct (N.leb_spec 0xD800 c), (N.ltb_spec c 0xE000); cbn [andb]; try lia.
  all: destruct (c <? 0x10000); by eexists.
Qed.

(** *** Round trips of the codec *)

(** Division by 64 splits off six bits. *)
Lemma split64 x : x = 64 * (x / 64) + x mod 64 ∧ x mod 64 < 64.
Proof. split; [by apply N.div_mod|by apply N.mod_lt]. Qed.

(** Name the three groups of six bits below the top of [c]. *)
Ltac name_sextets c :=
  replace (c / 262144) with (c / 64 / 64 / 64) by (by rewrite !N.Div0.div_div);
  replace (c / 4096) with (c / 64 / 64) by (by rewrite !N.Div0.div_div);
  pose proof (split64 c); pose proof (split64 (c / 64));
  pose proof (split64 (c / 64 / 64));
  generalize dependent (c mod 64); intros ?r;
  generalize dependent (c / 64 mod 64); intros ?r;
  generalize dependent (c / 64 / 64 mod 64); intros ?r;
  generalize dependent (c / 64 / 64 / 64); intros ?q;
  generalize dependent (c / 64 / 64); intros ?q;
  generalize dependent (c / 64); intros ?q; intros.

(** Prove that a test is [true] or [false] from the arithmetic of the
    context. *)
Ltac settle_test :=
  unfold is_continuation;
  repeat match goal with
         | |- context [?a <? ?b] => destruct (N.ltb_spec a b)
         | |- context [?a <=? ?b] => destruct (N.leb_spec a b)
         | |- context [?a =? ?b] => destruct (N.eqb_spec a b)
         end;
  cbn [andb orb negb]; first [reflexivity | exfalso; lia].

(** Settle the test at the head of the left-hand side. *)
Ltac settle_head :=
  match goal with
  | |- (if ?b then _ else _) = _ =>
      first [ replace b with true by (symmetry; settle_test)
            | replace b with false by (symmetry; settle_test) ]
  end.

(** A scalar value decodes back from its encoding, in front of any
    further data. *)
Lemma decode_encode_char errors c bytes rest :
  is_scalar c = true →
  encode_char c = Returns bytes →
  decode errors (bytes ++ rest) = emit c (decode errors rest).
Proof.
  intros [Hmax Hsur]%is_scalar_true. unfold encode_char, is_surrogate.
  destruct (N.ltb_spec c 0x80); [intros [= <-]|].
  { cbn [app decode]. by settle_head. }
  destruct (N.ltb_spec c 0x800); [intros [= <-]|].
  { name_sextets c. cbn [app decode]. repeat settle_head. f_equal. lia. }
  destruct (N.leb_spec 0xD800 c), (N.ltb_spec c 0xE000); cbn [andb]; try lia.
  all: destruct (N.ltb_spec c 0x10000); intros [= <-].
  all: name_sextets c; cbn [app decode]; repeat settle_head; f_equal; lia.
Qed.

(** Encoding then decoding strictly gives the text back. *)
Lemma decode_encode text data :
  Forall (λ c, is_scalar c = true) text →
  encode text = Returns data →
  decode strict data = Returns text.
Proof.
  intros Htext. revert data. induction Htext as [|c text Hc _ IH]; intros data.
  { by intros [= <-]. }
  cbn [encode]. destruct (encode_char c) as [bytes|] eqn:Hchar; [|done].
  destruct (encode text) as [rest|] eqn:Hrest; [|done]. intros [= <-].
  rewrite (decode_encode_char _ c bytes rest Hc Hchar). by rewrite (IH rest).
Qed.

(** The bytes that decode strictly into one code point are the encoding
    of that code point. *)
Ltac encode_char_is bytes :=
  match goal with
  | |- context [encode_char ?e] =>
      let Hchar := fresh "Hchar" in
      assert (encode_char e = Returns bytes) as Hchar;
      [ tests_to_arith; unfold encode_char, is_surrogate;
        let c := fresh "c" in
        let Hc := fresh "Hc" in
        remember e as c eqn:Hc; name_sextets c; repeat settle_head;
        repeat f_equal; lia
      | rewrite Hchar; reflexivity ]
  end.

(** Decoding strictly then encoding gives the bytes back. *)
Lemma encode_decode data text :
  decode strict data = Returns text → encode text = Returns data.
Proof.
  remember (length data) as n eqn:Hn. revert data text Hn.
  induction n as [n IH] using lt_wf_ind. intros data text -> Hdec.
  assert (∀ rest text', (length rest < length data)%nat →
            decode strict rest = Returns text' → encode text' = Returns rest) as IH'.
  { intros rest text' Hlen. by apply (IH _ Hlen). }
  clear IH. destruct data as [|ch s1]; [by injection Hdec as <-|].
  cbn [decode] in Hdec. repeat decode_branch Hdec.
  all: try (by apply invalid_Returns in Hdec as [? _]).
  all: apply emit_Returns in Hdec as (text' & Hdec & ->).
  all: cbn [encode];
    match type of Hdec with
    | decode strict ?rest = _ =>
        rewrite (IH' rest text'); [|cbn [length]; lia|done]
    end.
  all: match goal with
       | |- _ = Returns (?a :: ?b :: ?c :: ?d :: ?r) => is_var r; encode_char_is [a; b; c; d]
       | |- _ = Returns (?a :: ?b :: ?c :: ?r) => is_var r; encode_char_is [a; b; c]
       | |- _ = Returns (?a :: ?b :: ?r) => is_var r; encode_char_is [a; b]
       | |- _ = Returns (?a :: ?r) => is_var r; encode_char_is [a]
       end.
Qed.

(** An ASCII character of a strictly decoded text is a byte of the
    data: the code points of longer sequences are all above it. *)
Lemma decode_ascii_elem data text c :
  decode strict data = Returns text → c < 0x80 → c ∈ text → c ∈ data.
Proof.
  intros Hdec Hc. remember (length data) as n eqn:Hn. revert data text Hn Hdec.
  induction n as [n IH] using lt_wf_ind. intros data text -> Hdec Hin.
  assert (∀ rest text', (length rest < length data)%nat →
            decode strict rest = Returns text' → c ∈ text' → c ∈ rest) as IH'.
  { intros rest text' Hlen. by apply (IH _ Hlen). }
  clear IH. destruct data as [|ch s1].
  { injection Hdec as <-. by apply elem_of_nil in Hin. }
  cbn [decode] in Hdec. repeat decode_branch Hdec.
  all: try (by apply invalid_Returns in Hdec as [? _]).
  all: apply emit_Returns in Hdec as (text' & Hdec & ->).
  all: apply elem_of_cons in Hin as [->|Hin];
    [ first [ by left | exfalso; tests_to_arith; lia ]
    | repeat right; eapply IH'; [|eassumption|done]; cbn [length]; lia ].
Qed.

(** Newline translation leaves no carriage return, and leaves a text
    without carriage returns as it is. *)
Lemma universal_newlines_no_cr text : 13 ∉ universal_newlines text.
Proof.
  remember (length text) as n eqn:Hn. revert text Hn.
  induction n as [n IH] using lt_wf_ind. intros text ->.
  assert (∀ rest, (length rest < length text)%nat → 13 ∉ universal_newlines rest)
    as IH'.
  { intros rest Hlen. by apply (IH _ Hlen). }
  clear IH. destruct text as [|a text']; [apply not_elem_of_nil|].
  cbn [universal_newlines]. destruct (N.eqb_spec a 13) as [->|Ha].
  - destruct text' as [|d text''].
    + by intros [=]%list_elem_of_singleton.
    + destruct (d =? 10); apply not_elem_of_cons; (split; [done|]);
        apply IH'; cbn [length]; lia.
  - apply not_elem_of_cons. split; [done|]. apply IH'. cbn [length]. lia.
Qed.

Lemma universal_newlines_id text : 13 ∉ text → universal_newlines text = text.
Proof.
  induction text as [|a text IH]; [done|].
  intros [Ha Htext]%not_elem_of_cons. cbn [universal_newlines].
  destruct (N.eqb_spec a 13); [done|]. by rewrite IH.
Qed.

End codec_properties.

(** ** Properties of the chunker *)
Module chunker_properties.
Import code_chunker spec.

Section walk.
Variable path : PurePath.
Variable code : list N.

Lemma declarations_unfold node :
  declarations node
  = (if is_extractable (type node) then [node] else [])
    ++ flat_map declarations (children node).
Proof.
  unfold declarations at 1. destruct node as [t sb eb sp ep cs].
  cbn [preorder children type]. rewrite filter_cons. cbn [type].
  assert (filter (λ node, is_extractable (type node) = true) (flat_map preorder cs)
          = flat_map declarations cs) as ->.
  { induction cs as [|c cs IH]; [done|]. cbn [flat_map]. by rewrite filter_app, IH. }
  destruct (is_extractable t); [rewrite decide_True by done|rewrite decide_False by done];
    reflexivity.
Qed.

(** The loop over the children, given that each child behaves. *)
Lemma recurse_children cs :
  Forall (λ c, ∀ depth chunks,
            recurse path code c depth chunks
            = chunks ++ (make_chunk path code <$> declarations c)) cs →
  ∀ depth chunks,
    fold_left (λ chunks child, recurse path code child depth chunks) cs chunks
    = chunks ++ (make_chunk path code <$> flat_map declarations cs).
Proof.
  induction 1 as [|c cs Hc _ IH]; intros depth chunks; cbn.
  - by rewrite app_nil_r.
  - rewrite Hc, IH, fmap_app. by rewrite (assoc_L (++)).
Qed.

(** The walk appends, in pre-order, one chunk for every node of an
    extractable kind, and nothing else. *)
Lemma recurse_declarations node depth chunks :
  recurse path code node depth chunks
  = chunks ++ (make_chunk path code <$> declarations node).
Proof.
  revert depth chunks. induction node as [t sb eb sp ep cs IH] using Node_children_ind.
  intros depth chunks. rewrite declarations_unfold. cbn [recurse children type].
  rewrite (recurse_children cs IH). rewrite fmap_app.
  destruct (is_extractable t); cbn; by rewrite <-?(assoc_L (++)), ?app_nil_r.
Qed.

Lemma extract_declarations root :
  extract root code path = make_chunk path code <$> declarations root.
Proof. unfold extract. by rewrite recurse_declarations. Qed.
End walk.

(** *** Loading the source *)

Section loading.
Context {platform : Platform}.

(** The text handed on by the loader always encodes. *)
Lemma decoded_text_encodes data :
  ∃ encoded, codec.encode (decoded_text data) = Returns encoded.
Proof.
  unfold decoded_text. destruct (codec.decode codec.strict data) as [text|e] eqn:Hstrict.
  - eapply codec_properties.encode_scalar, codec_properties.universal_newlines_scalar,
      codec_properties.decode_scalar; eauto.
  - destruct (codec_properties.decode_replace_returns data) as [text Hreplace].
    rewrite Hreplace.
    eapply codec_properties.encode_scalar, codec_properties.universal_newlines_scalar,
      codec_properties.decode_scalar; eauto.
Qed.

(** A file that cannot be opened or read: the error reaches the caller. *)
Lemma extract_code_chunks_unreadable file_path msg :
  read_bytes (str (Path file_path)) = Raises msg →
  extract_code_chunks file_path = ([], Raises (OSError msg)).
Proof.
  intros Hread. unfold extract_code_chunks, read_text. by rewrite Hread.
Qed.

(** A file that can be read: the walk runs over the tree of the text
    handed on by the loader. *)
Lemma extract_code_chunks_readable file_path data encoded :
  read_bytes (str (Path file_path)) = Returns data →
  codec.encode (decoded_text data) = Returns encoded →
  extract_code_chunks file_path
  = (diagnostics file_path data,
     Returns (extract (parse encoded) (decoded_text data) (Path file_path))).
Proof.
  intros Hread Hencode. unfold extract_code_chunks, read_text, decoded_text, diagnostics in *.
  rewrite Hread.
  destruct (codec.decode codec.strict data) as [text|e] eqn:Hstrict.
  - cbn. by rewrite Hencode.
  - destruct (codec_properties.decode_replace_returns data) as [text Hreplace].
    rewrite Hreplace in Hencode |- *.
    rewrite (codec_properties.decode_raises _ _ _ Hstrict).
    cbn. by rewrite Hencode.
Qed.

(** Every run that returns is a walk over a parsed file, and every
    parsed file makes the run return its walk. *)
Lemma extract_code_chunks_returns file_path out chunks :
  extract_code_chunks file_path = (out, Returns chunks) →
  ∃ code root, parsed file_path code root ∧ chunks = extract root code (Path file_path).
Proof.
  intros Hrun. destruct (read_bytes (str (Path file_path))) as [data|msg] eqn:Hread.
  - destruct (decoded_text_encodes data) as [encoded Hencode].
    rewrite (extract_code_chunks_readable _ _ _ Hread Hencode) in Hrun.
    injection Hrun as _ <-.
    exists (decoded_text data), (parse encoded). split; [|done].
    by exists data, encoded.
  - by rewrite (extract_code_chunks_unreadable _ _ Hread) in Hrun.
Qed.

Lemma parsed_returns file_path code root :
  parsed file_path code root →
  ∃ out, extract_code_chunks file_path = (out, Returns (extract root code (Path file_path))).
Proof.
  intros (data & encoded & Hread & -> & Hencode & ->).
  eexists. by apply extract_code_chunks_readable.
Qed.

End loading.

(** *** Chunks and the nodes they come from *)

Lemma elem_of_declarations node root :
  node ∈ declarations root ↔ node ∈ preorder root ∧ is_extractable (type node) = true.
Proof. unfold declarations. rewrite list_elem_of_filter. tauto. Qed.

Lemma elem_of_extract path code root chunk :
  chunk ∈ extract root code path ↔
  ∃ node, chunk = make_chunk path code node
          ∧ node ∈ preorder root ∧ is_extractable (type node) = true.
Proof.
  rewrite extract_declarations, list_elem_of_fmap.
  by setoid_rewrite elem_of_declarations.
Qed.

Lemma is_extractable_cases kind :
  is_extractable kind = true →
  kind = "class_declaration" ∨ kind = "struct_declaration"
  ∨ kind = "function_declaration".
Proof.
  unfold is_extractable, extractable_kinds. cbn [existsb].
  rewrite !orb_true_iff, !String.eqb_eq. intuition congruence.
Qed.

Lemma append_nil_l (s : string) : "" +:+ s = s.
Proof. reflexivity. Qed.

Lemma append_cons c (a b : string) : String c a +:+ b = String c (a +:+ b).
Proof. reflexivity. Qed.

Lemma append_assoc (a b c : string) : (a +:+ b) +:+ c = a +:+ b +:+ c.
Proof.
  induction a as [|x a IH]; [done|]. by rewrite !append_cons, IH.
Qed.

Lemma endswith_app prefix suffix : endswith (prefix +:+ suffix) suffix = true.
Proof.
  induction prefix as [|c prefix IH].
  - rewrite append_nil_l. destruct suffix; [done|].
    cbn [endswith]. by rewrite String.eqb_refl.
  - rewrite append_cons. cbn [endswith]. rewrite IH. apply orb_true_r.
Qed.

(** The identifier and the start line of the chunk of a node. *)
Lemma chunk_id_of_node path code node :
  chunk_id (make_chunk path code node)
  = name path +:+ "::" +:+ type node +:+ "_" +:+ pretty (start_row node)
  ∧ start_line (make_chunk path code node) = start_row node + 1
  ∧ (start_line (make_chunk path code node) = 10 →
     endswith (chunk_id (make_chunk path code node)) "_9" = true).
Proof.
  repeat split. cbn. unfold start_row. intros Hline.
  assert (fst (start_point node) = 9) as -> by lia.
  change (pretty 9) with "9".
  assert (∀ a b c : string, a +:+ "::" +:+ b +:+ "_" +:+ c
                            = (a +:+ "::" +:+ b) +:+ "_" +:+ c) as ->.
  { intros. by rewrite !append_assoc. }
  apply endswith_app.
Qed.

(** C2. Every chunk that an extraction returns comes from a node of an
    extractable kind in the tree of the file, and its identifier is the
    base name of the file, two colons, the kind of the node, an
    underscore and the 0-based start line of the node in decimal; so a
    declaration that starts on source line 10 has an identifier ending
    in [_9]. *)
Theorem chunk_id_format {platform : Platform} file_path out chunks chunk :
  extract_code_chunks file_path = (out, Returns chunks) →
  chunk ∈ chunks →
  ∃ code root node,
    parsed file_path code root
    ∧ node ∈ preorder root ∧ is_extractable (type node) = true
    ∧ chunk = make_chunk (Path file_path) code node
    ∧ chunk_id chunk
      = name (Path file_path) +:+ "::" +:+ type node +:+ "_"
        +:+ pretty (start_row node)
    ∧ start_line chunk = start_row node + 1
    ∧ (start_line chunk = 10 → endswith (chunk_id chunk) "_9" = true).
Proof.
  intros (code & root & Hparsed & ->)%extract_code_chunks_returns
         (node & -> & Hin & Hkind)%elem_of_extract.
  exists code, root, node. do 4 (split; [done|]). apply chunk_id_of_node.
Qed.

Lemma chunk_id_format_witness :
  let path := samples.swift_path "Late.swift" in
  let chunk := make_chunk path samples.late_text samples.late_function in
  ∃ code root node,
    parsed (platform := samples.platform) "Late.swift" code root
    ∧ node ∈ preorder root ∧ is_extractable (type node) = true
    ∧ chunk = make_chunk path code node
    ∧ chunk_id chunk
      = name path +:+ "::" +:+ type node +:+ "_" +:+ pretty (start_row node)
    ∧ start_line chunk = start_row node + 1
    ∧ (start_line chunk = 10 → endswith (chunk_id chunk) "_9" = true).
Proof.
  intros path chunk.
  apply (chunk_id_format (platform := samples.platform) "Late.swift" [] [chunk] chunk).
  - by vm_compute.
  - left.
Defined.

(** *** Distinct identifiers *)

Lemma chunk_id_identifier path code node :
  chunk_id (make_chunk path code node) = identifier path (declaration_key node).
Proof. reflexivity. Qed.

(** Two extractable kinds followed by rows give the same text only when
    kinds and rows agree. *)
Lemma kind_row_inj (k1 k2 : string) (r1 r2 : N) :
  is_extractable k1 = true → is_extractable k2 = true →
  k1 +:+ "_" +:+ pretty r1 = k2 +:+ "_" +:+ pretty r2 →
  k1 = k2 ∧ r1 = r2.
Proof.
  intros H1%is_extractable_cases H2%is_extractable_cases Heq.
  destruct H1 as [->|[->| ->]], H2 as [->|[->| ->]];
    try (rewrite !append_cons in Heq; discriminate Heq).
  all: split; [done|].
  all: apply (inj (String.append _)), (inj (String.append _)) in Heq.
  all: by apply (inj pretty).
Qed.

Lemma identifier_inj path key1 key2 :
  is_extractable (fst key1) = true → is_extractable (fst key2) = true →
  identifier path key1 = identifier path key2 → key1 = key2.
Proof.
  destruct key1 as [k1 r1], key2 as [k2 r2]. unfold identifier. cbn [fst snd].
  intros H1 H2 Heq.
  apply (inj (String.append _)), (inj (String.append _)) in Heq.
  destruct (kind_row_inj _ _ _ _ H1 H2 Heq) as [-> ->]. done.
Qed.

(** Distinct keys give distinct identifiers. *)
Lemma extract_ids_distinct path code root :
  NoDup (declaration_key <$> declarations root) →
  NoDup (chunk_id <$> extract root code path).
Proof.
  intros Hkeys. rewrite extract_declarations, <-list_fmap_compose.
  change (NoDup (identifier path ∘ declaration_key <$> declarations root)).
  rewrite list_fmap_compose.
  apply NoDup_fmap_2_strong; [|done].
  intros key1 key2 (n1 & -> & [_ H1]%elem_of_declarations)%list_elem_of_fmap
                   (n2 & -> & [_ H2]%elem_of_declarations)%list_elem_of_fmap.
  by apply identifier_inj.
Qed.

(** C3. When no two nodes of an extractable kind in the tree of the file
    have both the same kind and the same start line, the identifiers of
    the chunks that the extraction returns are pairwise distinct. *)
Theorem chunk_id_unique {platform : Platform} file_path out chunks :
  extract_code_chunks file_path = (out, Returns chunks) →
  (∀ code root, parsed file_path code root →
     NoDup (declaration_key <$> declarations root)) →
  NoDup (chunk_id <$> chunks).
Proof.
  intros (code & root & Hparsed & ->)%extract_code_chunks_returns Hkeys.
  by apply extract_ids_distinct, (Hkeys code).
Qed.

Lemma chunk_id_unique_witness :
  NoDup (chunk_id <$> extract samples.demo_tree samples.demo_text
                        (samples.swift_path "Demo.swift")).
Proof.
  apply (chunk_id_unique (platform := samples.platform) "Demo.swift" []).
  - by vm_compute.
  - intros code root (data & encoded & [= <-] & -> & [= <-] & ->).
    apply (bool_decide_unpack _). by vm_compute.
Defined.

(** *** Rows of a tree that the parser keeps consistent *)

Lemma elem_of_flat_map {A B} (f : A → list B) (l : list A) (y : B) :
  y ∈ flat_map f l ↔ ∃ x, x ∈ l ∧ y ∈ f x.
Proof.
  rewrite list_elem_of_In, in_flat_map.
  by setoid_rewrite list_elem_of_In.
Qed.

Lemma elem_of_preorder node root :
  node ∈ preorder root ↔ node = root ∨ nested_in node root.
Proof.
  unfold nested_in. destruct root as [t sb eb sp ep cs]. cbn [preorder children].
  by rewrite elem_of_cons, elem_of_flat_map.
Qed.

Lemma preorder_root root : root ∈ preorder root.
Proof. apply elem_of_preorder. by left. Qed.

Lemma rows_consistent_unfold node :
  rows_consistent node = true ↔
  start_row node ≤ end_row node
  ∧ (∀ child, child ∈ children node →
       start_row node ≤ start_row child ∧ end_row child ≤ end_row node
       ∧ rows_consistent child = true)
  ∧ siblings_in_order (children node) = true.
Proof.
  destruct node as [t sb eb sp ep cs]. cbn [rows_consistent children].
  rewrite !andb_true_iff, N.leb_le, forallb_forall.
  setoid_rewrite <-list_elem_of_In.
  setoid_rewrite andb_true_iff. setoid_rewrite andb_true_iff.
  setoid_rewrite N.leb_le. firstorder.
Qed.

(** Within a consistent tree every node is consistent and lies between
    the first and the last row of the root. *)
Lemma rows_consistent_preorder root :
  rows_consistent root = true →
  ∀ node, node ∈ preorder root →
    rows_consistent node = true
    ∧ start_row root ≤ start_row node ∧ end_row node ≤ end_row root.
Proof.
  induction root as [t sb eb sp ep cs IH] using Node_children_ind.
  intros Hroot node [->|(child & Hchild & Hnode)]%elem_of_preorder.
  - repeat split; [done|lia..].
  - apply rows_consistent_unfold in Hroot as (_ & Hcs & _).
    cbn [children] in Hchild, Hcs.
    destruct (Hcs child Hchild) as (Hs & He & Hwf).
    rewrite Forall_forall in IH.
    destruct (IH child Hchild Hwf node Hnode) as (? & ? & ?).
    repeat split; [done|lia..].
Qed.

(** The line numbers of the chunk of a node. *)
Lemma line_numbers_of_node path code node :
  start_line (make_chunk path code node) = start_row node + 1
  ∧ end_line (make_chunk path code node) = end_row node + 1
  ∧ lines (make_chunk path code node)
    = pretty (start_row node + 1) +:+ "-" +:+ pretty (end_row node + 1).
Proof. done. Qed.

(** C7. For every chunk that an extraction returns, the two line numbers
    are the 0-based start and end rows of its node plus one, hence
    1-based; [lines] is the two numbers in decimal joined by a hyphen;
    and the first is at most the second when the tree is one whose
    nodes do not end before they start, as the parser gives them. *)
Theorem line_numbers {platform : Platform} file_path out chunks chunk :
  extract_code_chunks file_path = (out, Returns chunks) →
  chunk ∈ chunks →
  ∃ code root node,
    parsed file_path code root
    ∧ node ∈ preorder root ∧ chunk = make_chunk (Path file_path) code node
    ∧ start_line chunk = start_row node + 1
    ∧ end_line chunk = end_row node + 1
    ∧ 1 ≤ start_line chunk
    ∧ lines chunk = pretty (start_line chunk) +:+ "-" +:+ pretty (end_line chunk)
    ∧ (rows_consistent root = true → start_line chunk ≤ end_line chunk).
Proof.
  intros (code & root & Hparsed & ->)%extract_code_chunks_returns
         (node & -> & Hin & _)%elem_of_extract.
  exists code, root, node. do 5 (split; [done|]).
  split; [cbn; lia|]. split; [done|].
  intros Hroot. destruct (rows_consistent_preorder _ Hroot _ Hin) as (Hnode & _).
  apply rows_consistent_unfold in Hnode as (Hle & _).
  unfold start_row, end_row in Hle. cbn. lia.
Qed.

Lemma line_numbers_witness :
  let path := samples.swift_path "Demo.swift" in
  let chunk := make_chunk path samples.demo_text samples.demo_class in
  ∃ code root node,
    parsed (platform := samples.platform) "Demo.swift" code root
    ∧ node ∈ preorder root ∧ chunk = make_chunk path code node
    ∧ start_line chunk = start_row node + 1
    ∧ end_line chunk = end_row node + 1
    ∧ 1 ≤ start_line chunk
    ∧ lines chunk = pretty (start_line chunk) +:+ "-" +:+ pretty (end_line chunk)
    ∧ (rows_consistent root = true → start_line chunk ≤ end_line chunk).
Proof.
  intros path chunk.
  apply (line_numbers (platform := samples.platform) "Demo.swift" []
           (extract samples.demo_tree samples.demo_text path) chunk).
  - by vm_compute.
  - vm_compute. left.
Defined.

(** The rows of the sample trees are consistent, and the class of
    [Demo.swift] is on lines 1 to 3. *)
Example line_numbers_samples :
  rows_consistent samples.demo_tree = true
  ∧ rows_consistent samples.late_tree = true
  ∧ rows_consistent samples.cafe_tree = true
  ∧ lines (make_chunk (samples.swift_path "Demo.swift") samples.demo_text
             samples.demo_class) = "1-3".
Proof. repeat split; by vm_compute. Qed.

(** *** The order of the walk *)

Lemma flat_map_app {A B} (f : A → list B) (l1 l2 : list A) :
  flat_map f (l1 ++ l2) = flat_map f l1 ++ flat_map f l2.
Proof. induction l1 as [|x l1 IH]; cbn; [done|]. by rewrite IH, (assoc_L (++)). Qed.

(** The subtree of a node occupies one contiguous stretch of the
    pre-order of the tree. *)
Lemma preorder_split root node :
  node ∈ preorder root →
  ∃ before after, preorder root = before ++ preorder node ++ after.
Proof.
  induction root as [t sb eb sp ep cs IH] using Node_children_ind.
  intros [->|(child & Hchild & Hnode)]%elem_of_preorder.
  - exists [], []. by rewrite app_nil_r.
  - cbn [children] in Hchild. rewrite Forall_forall in IH.
    destruct (IH child Hchild Hnode) as (before & after & Heq).
    apply list_elem_of_split in Hchild as (cs1 & cs2 & ->).
    exists (mkNode t sb eb sp ep (cs1 ++ child :: cs2) :: flat_map preorder cs1 ++ before),
           (after ++ flat_map preorder cs2).
    cbn [preorder children flat_map]. rewrite flat_map_app. cbn [flat_map].
    rewrite Heq, <-app_comm_cons. f_equal. by rewrite <-!(assoc_L (++)).
Qed.

(** A node comes before everything nested in it. *)
Lemma preorder_nested outer inner :
  nested_in inner outer →
  ∃ between after, preorder outer = outer :: between ++ inner :: after.
Proof.
  intros (child & Hchild & Hinner).
  destruct (preorder_split child inner Hinner) as (before & after & Heq).
  apply list_elem_of_split in Hchild as (cs1 & cs2 & Hcs).
  destruct outer as [t sb eb sp ep cs]. cbn [children] in Hcs. subst cs.
  assert (∃ rest, preorder inner = inner :: rest) as [rest Hrest].
  { destruct inner. by eexists. }
  exists (flat_map preorder cs1 ++ before), (rest ++ after ++ flat_map preorder cs2).
  cbn [preorder children]. rewrite flat_map_app. cbn [flat_map].
  rewrite Heq, Hrest. f_equal.
  rewrite <-!(assoc_L (++)). cbn [app]. by rewrite <-?(assoc_L (++)).
Qed.

Lemma StronglySorted_filter {A} (R : relation A) (P : A → Prop)
    `{∀ x, Decision (P x)} (l : list A) :
  StronglySorted R l → StronglySorted R (filter P l).
Proof.
  induction l as [|x l IH]; intros Hsorted; [constructor|].
  apply StronglySorted_cons in Hsorted as [Hx Hl].
  rewrite filter_cons. destruct (decide (P x)); [|by apply IH].
  apply StronglySorted_cons. split; [|by apply IH].
  rewrite Forall_forall in Hx |- *.
  intros y [_ Hy]%list_elem_of_filter. auto.
Qed.

(** Everything under later siblings starts at or after the end of an
    earlier sibling. *)
Lemma siblings_after first rest :
  siblings_in_order (first :: rest) = true →
  Forall (λ c, rows_consistent c = true) (first :: rest) →
  Forall (λ node, end_row first ≤ start_row node) (flat_map preorder rest).
Proof.
  revert first. induction rest as [|second rest IH]; intros first Hord Hwf.
  { constructor. }
  cbn [siblings_in_order] in Hord.
  apply andb_true_iff in Hord as [Hle%N.leb_le Hord].
  apply Forall_cons in Hwf as [Hfirst Hwf]. pose proof Hwf as Hwf'.
  apply Forall_cons in Hwf' as [Hsecond _].
  cbn [flat_map]. apply Forall_app. split.
  - apply Forall_forall. intros node Hnode.
    destruct (rows_consistent_preorder _ Hsecond _ Hnode) as (_ & ? & _). lia.
  - specialize (IH second Hord Hwf).
    apply rows_consistent_unfold in Hsecond as (? & _).
    eapply Forall_impl; [exact IH|]. cbn. intros. lia.
Qed.

Lemma siblings_sorted cs :
  siblings_in_order cs = true →
  Forall (λ c, rows_consistent c = true) cs →
  Forall (λ c, StronglySorted starts_before (preorder c)) cs →
  StronglySorted starts_before (flat_map preorder cs).
Proof.
  induction cs as [|first rest IH]; intros Hord Hwf Hsorted; [constructor|].
  cbn [flat_map]. apply StronglySorted_app.
  pose proof (siblings_after first rest Hord Hwf) as Hafter.
  apply Forall_cons in Hsorted as [Hfirst Hsorted].
  pose proof Hwf as Hwf'. apply Forall_cons in Hwf' as [Hwf1 Hwfrest].
  split; [|split; [done|]].
  - intros x y Hx Hy. rewrite Forall_forall in Hafter. specialize (Hafter y Hy).
    destruct (rows_consistent_preorder _ Hwf1 _ Hx) as (Hxwf & _ & ?).
    apply rows_consistent_unfold in Hxwf as (? & _).
    unfold starts_before. lia.
  - apply IH; [|done..]. destruct rest; [done|].
    cbn [siblings_in_order] in Hord. by apply andb_true_iff in Hord as [_ ?].
Qed.

(** In a consistent tree the pre-order runs from the top of the source
    to its bottom. *)
Lemma preorder_sorted root :
  rows_consistent root = true → StronglySorted starts_before (preorder root).
Proof.
  induction root as [t sb eb sp ep cs IH] using Node_children_ind.
  intros Hroot. cbn [preorder children]. constructor.
  - apply rows_consistent_unfold in Hroot as (_ & Hcs & Hord). cbn [children] in *.
    apply siblings_sorted; [done|..]; apply Forall_forall.
    + intros c Hc. by destruct (Hcs c Hc) as (_ & _ & ?).
    + intros c Hc. rewrite Forall_forall in IH. apply IH; [done|].
      by destruct (Hcs c Hc) as (_ & _ & ?).
  - apply Forall_forall. intros node Hnode.
    assert (node ∈ preorder (mkNode t sb eb sp ep cs)) as Hin.
    { cbn [preorder children]. by right. }
    destruct (rows_consistent_preorder _ Hroot _ Hin) as (_ & ? & _). done.
Qed.

(** Two nodes of a list, both kept by the filter, are found in the
    filtered and mapped list in the same order. *)
Lemma lookup_filtered_pair {A B} (f : A → B) (P : A → Prop) `{∀ x, Decision (P x)}
    (before between after : list A) (x y : A) :
  P x → P y →
  ∃ i j : nat,
    (i < j)%nat
    ∧ (f <$> filter P (before ++ x :: between ++ y :: after)) !! i = Some (f x)
    ∧ (f <$> filter P (before ++ x :: between ++ y :: after)) !! j = Some (f y).
Proof.
  intros Hx Hy.
  exists (length (filter P before)),
         (length (filter P before) + S (length (filter P between)))%nat.
  rewrite filter_app, filter_cons, decide_True by done.
  rewrite filter_app, filter_cons, decide_True by done.
  rewrite !list_lookup_fmap. split; [lia|]. split.
  - by rewrite list_lookup_middle.
  - rewrite lookup_app_r by lia.
    replace (_ + _ - _)%nat with (S (length (filter P between))) by lia.
    rewrite lookup_cons_ne_0 by done. cbn [pred]. by rewrite list_lookup_middle.
Qed.

(** C4. The walk is a depth-first pre-order walk: it appends, to the
    chunks collected so far, one chunk for every node of an extractable
    kind, in pre-order, so children are visited whether or not their
    parent matched and nothing is sorted again.  A declaration nested in
    another one has its own chunk after the chunk of the outer one; in a
    tree with the rows the parser gives, its line span lies inside the
    outer span and the chunks come in source order from top to bottom. *)
Theorem walk_is_preorder path code root :
  (∀ depth chunks,
     recurse path code root depth chunks
     = chunks ++ (make_chunk path code
                  <$> filter (λ node, is_extractable (type node) = true)
                        (preorder root)))
  ∧ extract root code path
    = make_chunk path code
      <$> filter (λ node, is_extractable (type node) = true) (preorder root)
  ∧ (∀ outer inner,
       outer ∈ preorder root → nested_in inner outer →
       is_extractable (type outer) = true → is_extractable (type inner) = true →
       ∃ i j : nat,
         (i < j)%nat
         ∧ extract root code path !! i = Some (make_chunk path code outer)
         ∧ extract root code path !! j = Some (make_chunk path code inner)
         ∧ (rows_consistent root = true →
            start_line (make_chunk path code outer)
              ≤ start_line (make_chunk path code inner)
            ∧ end_line (make_chunk path code inner)
              ≤ end_line (make_chunk path code outer)))
  ∧ (rows_consistent root = true →
     StronglySorted N.le (start_line <$> extract root code path)).
Proof.
  split; [intros; apply recurse_declarations|].
  split; [apply extract_declarations|]. split.
  - intros outer inner Houter Hnested Hko Hki.
    destruct (preorder_split root outer Houter) as (before & after & Hroot).
    destruct (preorder_nested outer inner Hnested) as (between & after' & Hsub).
    rewrite extract_declarations. unfold declarations.
    rewrite Hroot, Hsub. rewrite <-app_comm_cons, <-(assoc_L (++)), <-app_comm_cons.
    destruct (lookup_filtered_pair (make_chunk path code)
                (λ node, is_extractable (type node) = true)
                before between (after' ++ after) outer inner Hko Hki)
      as (i & j & Hij & Hi & Hj).
    exists i, j. split; [done|]. split; [done|]. split; [done|].
    intros Hroot'. destruct (rows_consistent_preorder _ Hroot' _ Houter) as (Hwf & _).
    assert (inner ∈ preorder outer) as Hin by (apply elem_of_preorder; by right).
    destruct (rows_consistent_preorder _ Hwf _ Hin) as (_ & Hs & He).
    unfold start_row in Hs. unfold end_row in He. cbn. lia.
  - intros Hroot. rewrite extract_declarations, <-list_fmap_compose.
    apply (StronglySorted_fmap _ starts_before).
    + unfold starts_before, start_row. cbn. intros. lia.
    + apply StronglySorted_filter. by apply preorder_sorted.
Qed.

(** The walk over [Demo.swift]: the class, the method nested in it, then
    the function, and the tree is consistent. *)
Example walk_is_preorder_demo :
  let path := samples.swift_path "Demo.swift" in
  extract samples.demo_tree samples.demo_text path
  = make_chunk path samples.demo_text
    <$> [samples.demo_class; samples.demo_method; samples.demo_function]
  ∧ nested_in samples.demo_method samples.demo_class
  ∧ rows_consistent samples.demo_tree = true.
Proof.
  split; [by vm_compute|]. split; [|by vm_compute].
  exists (mkNode "class_body" 8 25 (0, 8) (2, 1)
            [ mkNode "{" 8 9 (0, 8) (0, 9) [];
              samples.demo_method;
              mkNode "}" 24 25 (2, 0) (2, 1) [] ]).
  split; [cbn [children samples.demo_class]; repeat (constructor; try done)|].
  cbn [preorder children flat_map].
  apply elem_of_cons. right. apply elem_of_cons. right.
  apply elem_of_app. left. apply preorder_root.
Qed.

(** *** The tag of a chunk *)

(** Facts about [str.replace], [startswith] and [endswith]. *)

Lemma length_append (a b : string) :
  String.length (a +:+ b) = (String.length a + String.length b)%nat.
Proof. induction a as [|c a IH]; [done|]. rewrite append_cons. cbn. by rewrite IH. Qed.

Lemma startswith_app (p r : string) : startswith (p +:+ r) p = true.
Proof.
  induction p as [|c p IH]; [rewrite append_nil_l; by destruct r|].
  rewrite append_cons. cbn [startswith]. by rewrite Ascii.eqb_refl.
Qed.

Lemma startswith_inv (s p : string) :
  startswith s p = true → ∃ r, s = p +:+ r.
Proof.
  revert s. induction p as [|c p IH]; intros s Hs.
  - by exists s.
  - destruct s as [|d s]; [done|]. cbn [startswith] in Hs.
    destruct (Ascii.eqb_spec c d) as [->|]; [|done].
    destruct (IH s Hs) as [r ->]. by exists r.
Qed.

Lemma endswith_inv (s p : string) :
  endswith s p = true → ∃ r, s = r +:+ p.
Proof.
  induction s as [|c s IH]; cbn [endswith]; intros [Heq|Hs]%orb_true_iff.
  - apply String.eqb_eq in Heq as <-. by exists "".
  - done.
  - apply String.eqb_eq in Heq as <-. by exists "".
  - destruct (IH Hs) as [r ->]. by exists (String c r).
Qed.

Lemma replace_from_skip old new (a s : string) :
  replace_from old new (String.length a) (a +:+ s) = replace_from old new 0 s.
Proof. induction a as [|c a IH]; [done|]. by rewrite append_cons. Qed.

Lemma replace_nonempty (s : string) c old new :
  replace s (String c old) new = replace_from (String c old) new 0 s.
Proof. reflexivity. Qed.

Lemma replace_from_match c old new r :
  replace_from (String c old) new 0 (String c old +:+ r)
  = new +:+ replace_from (String c old) new 0 r.
Proof.
  rewrite append_cons at 1. cbn [replace_from].
  rewrite <-append_cons, startswith_app.
  replace (String.length (String c old) - 1)%nat with (String.length old)
    by (cbn [String.length]; lia).
  by rewrite replace_from_skip.
Qed.

Lemma replace_from_no_match old new c s :
  startswith (String c s) old = false →
  replace_from old new 0 (String c s) = String c (replace_from old new 0 s).
Proof. intros Hs. cbn [replace_from]. by rewrite Hs. Qed.

Lemma replace_from_shrinks c old s :
  (String.length (replace_from (String c old) "" 0 s) ≤ String.length s)%nat.
Proof.
  remember (String.length s) as n eqn:Hn. revert s Hn.
  induction n as [n IH] using lt_wf_ind. intros s ->.
  assert (∀ r, (String.length r < String.length s)%nat →
            (String.length (replace_from (String c old) "" 0 r) ≤ String.length r)%nat)
    as IH'.
  { intros r Hlen. by apply (IH _ Hlen). }
  clear IH. destruct s as [|d s]; [done|].
  destruct (startswith (String d s) (String c old)) eqn:Hs.
  - apply startswith_inv in Hs as [r Hr]. rewrite Hr in IH' |- *.
    rewrite replace_from_match, append_nil_l.
    rewrite length_append in IH' |- *. cbn [String.length] in IH' |- *.
    etrans; [apply IH'|]; lia.
  - rewrite replace_from_no_match by done. cbn [String.length] in IH' |- *.
    specialize (IH' s). lia.
Qed.

Lemma replace_removes_occurrence c old (a b : string) :
  (String.length (replace_from (String c old) "" 0 (a +:+ String c old +:+ b))
   + String.length (String c old)
   ≤ String.length (a +:+ String c old +:+ b))%nat.
Proof.
  induction a as [|d a IH].
  - rewrite append_nil_l, replace_from_match, append_nil_l, length_append.
    pose proof (replace_from_shrinks c old b). lia.
  - rewrite append_cons.
    destruct (startswith (String d (a +:+ String c old +:+ b)) (String c old)) eqn:Hs.
    + apply startswith_inv in Hs as [r Hr]. rewrite Hr, replace_from_match, append_nil_l.
      rewrite length_append. pose proof (replace_from_shrinks c old r). lia.
    + rewrite replace_from_no_match by done. cbn [String.length] in IH |- *. lia.
Qed.

(** [_declaration] does not overlap itself: an occurrence that starts
    inside another one would put its underscore on a letter. *)
Lemma suffix_no_overlap (a b r : string) :
  a ≠ "" → (String.length a < 12)%nat →
  a +:+ "_declaration" +:+ b ≠ "_declaration" +:+ r.
Proof.
  intros Ha Hlen Heq. destruct a as [|c a]; [done|]. clear Ha.
  do 11 (rewrite append_cons in Heq; injection Heq as -> Heq;
         destruct a as [|c a]; [rewrite append_cons in Heq; discriminate Heq|]).
  cbn in Hlen. lia.
Qed.

Lemma long_prefix (a b r : string) :
  (12 ≤ String.length a)%nat → a +:+ b = "_declaration" +:+ r → ∃ rest, a = "_declaration" +:+ rest.
Proof.
  intros Hlen Heq.
  do 12 (destruct a as [|? a]; [cbn in Hlen; lia|];
         rewrite append_cons in Heq; injection Heq as -> Heq).
  by exists a.
Qed.

Lemma append_nil_r (s : string) : s +:+ "" = s.
Proof. induction s as [|c s IH]; [done|]. by rewrite append_cons, IH. Qed.

Lemma startswith_refl (p : string) : startswith p p = true.
Proof. rewrite <-(append_nil_r p) at 1. apply startswith_app. Qed.

Lemma endswith_tail c (s p : string) :
  startswith (String c s) p = false → endswith (String c s) p = true →
  endswith s p = true.
Proof.
  intros Hstart. cbn [endswith]. intros [Heq|?]%orb_true_iff; [|done].
  apply String.eqb_eq in Heq. rewrite Heq, startswith_refl in Hstart. done.
Qed.

(** When the text goes on after an occurrence and still ends with the
    suffix, replacing removes at least two occurrences. *)
Lemma replace_removes_two (a b : string) :
  b ≠ "" →
  endswith (a +:+ "_declaration" +:+ b) "_declaration" = true →
  (String.length (replace_from "_declaration" "" 0 (a +:+ "_declaration" +:+ b)) + 24
   ≤ String.length (a +:+ "_declaration" +:+ b))%nat.
Proof.
  intros Hb. induction a as [|d a IH]; intros Hend.
  - rewrite append_nil_l in Hend |- *. rewrite replace_from_match, append_nil_l.
    apply endswith_inv in Hend as [y Hy].
    destruct (decide (String.length y < 12)%nat) as [Hshort|Hlong].
    + destruct y as [|c y].
      * rewrite append_nil_l in Hy. rewrite <-(append_nil_r "_declaration") in Hy at 2.
        apply (inj (String.append _)) in Hy. done.
      * exfalso. apply (suffix_no_overlap (String c y) "" b); [done|done|].
        by rewrite Hy.
    + destruct (long_prefix y "_declaration" b) as [rest ->]; [lia|done|].
      rewrite append_assoc in Hy. apply (inj (String.append _)) in Hy as ->.
      pose proof (replace_removes_occurrence "_" "declaration" rest "") as Hone.
      change ("_declaration" +:+ "") with "_declaration" in Hone.
      rewrite !length_append in Hone. rewrite !length_append.
      cbn [String.length] in Hone |- *. lia.
  - rewrite append_cons in Hend |- *.
    destruct (startswith (String d (a +:+ "_declaration" +:+ b)) "_declaration") eqn:Hs.
    + apply startswith_inv in Hs as [r Hr].
      destruct (decide (String.length (String d a) < 12)%nat) as [Hshort|Hlong].
      { exfalso. apply (suffix_no_overlap (String d a) b r); [done|done|].
        by rewrite append_cons. }
      rewrite <-append_cons in Hr.
      destruct (long_prefix (String d a) ("_declaration" +:+ b) r) as [rest Hrest]; [lia|done|].
      rewrite <-append_cons, Hrest, append_assoc, replace_from_match, append_nil_l.
      pose proof (replace_removes_occurrence "_" "declaration" rest b) as Hone.
      rewrite !length_append in Hone. rewrite !length_append.
      cbn [String.length] in Hone |- *. lia.
    + rewrite replace_from_no_match by done. cbn [String.length].
      specialize (IH (endswith_tail _ _ _ Hs Hend)). lia.
Qed.

Lemma length_substring_0 (n : nat) (s : string) :
  (n ≤ String.length s)%nat → String.length (String.substring 0 n s) = n.
Proof.
  revert s. induction n as [|n IH]; intros [|c s] Hn; cbn in *; try done; try lia.
  rewrite IH; [done|lia].
Qed.

(** Whenever [_declaration] occurs before the end of a kind, replacing
    every occurrence and stripping one trailing occurrence differ. *)
Lemma replace_differs_from_strip_suffix (a b : string) :
  b ≠ "" →
  replace (a +:+ "_declaration" +:+ b) "_declaration" "" ≠ strip_suffix (a +:+ "_declaration" +:+ b) "_declaration".
Proof.
  intros Hb Heq. apply (f_equal String.length) in Heq.
  rewrite replace_nonempty in Heq. unfold strip_suffix in Heq.
  destruct (endswith (a +:+ "_declaration" +:+ b) "_declaration") eqn:Hend.
  - pose proof (replace_removes_two a b Hb Hend) as Htwo.
    rewrite length_substring_0 in Heq by lia. cbn [String.length] in Heq. lia.
  - pose proof (replace_removes_occurrence "_" "declaration" a b) as Hone.
    cbn [String.length] in Hone. lia.
Qed.


(** C10. For each of the three extractable kinds, replacing every
    occurrence of [_declaration] by nothing gives what stripping one
    trailing [_declaration] gives, namely [class], [struct] or
    [function], and that is the tag of the chunk; on every kind in which
    [_declaration] is followed by more text the two operations differ,
    for instance on [protocol_declaration_list]. *)
Theorem tag_replace_is_strip_suffix :
  (∀ kind, is_extractable kind = true →
     replace kind "_declaration" "" = strip_suffix kind "_declaration"
     ∧ replace kind "_declaration" "" ∈ ["class"; "struct"; "function"]
     ∧ ∀ path code node, type node = kind →
         tags (make_chunk path code node) = [strip_suffix kind "_declaration"])
  ∧ replace "class_declaration" "_declaration" "" = "class"
  ∧ replace "struct_declaration" "_declaration" "" = "struct"
  ∧ replace "function_declaration" "_declaration" "" = "function"
  ∧ replace "protocol_declaration_list" "_declaration" "" = "protocol_list"
  ∧ strip_suffix "protocol_declaration_list" "_declaration" = "protocol_declaration_list"
  ∧ (∀ before after : string,
       after ≠ "" →
       replace (before +:+ "_declaration" +:+ after) "_declaration" ""
       ≠ strip_suffix (before +:+ "_declaration" +:+ after) "_declaration").
Proof.
  split; [|repeat split; try (by vm_compute); apply replace_differs_from_strip_suffix].
  intros kind [->|[->| ->]]%is_extractable_cases.
  all: split; [by vm_compute|]; split.
  all: try (intros path code node Hkind; cbn [tags make_chunk]; rewrite Hkind;
            by vm_compute).
  all: vm_compute; repeat constructor.
Qed.

(** C5. A file that cannot be opened or read makes the extraction raise
    the [OSError] to the caller.  A readable file never makes it raise:
    when the bytes are valid UTF-8 the strict decoding is used and
    nothing is printed; otherwise the text is the decoding with
    replacement, which holds U+FFFD for the invalid bytes, one line that
    names the file is printed, and the extraction goes on as usual. *)
Theorem loader_outcomes {platform : Platform} file_path :
  (∀ msg, read_bytes (str (Path file_path)) = Raises msg →
     extract_code_chunks file_path = ([], Raises (OSError msg)))
  ∧ (∀ data, read_bytes (str (Path file_path)) = Returns data →
       ∃ code encoded out,
         codec.encode code = Returns encoded
         ∧ extract_code_chunks file_path
           = (out, Returns (extract (parse encoded) code (Path file_path)))
         ∧ match codec.decode codec.strict data with
           | Returns text => code = codec.universal_newlines text ∧ out = []
           | Raises _ =>
               ∃ text,
                 codec.decode codec.replace data = Returns text
                 ∧ codec.REPLACEMENT ∈ text
                 ∧ code = codec.universal_newlines text
                 ∧ out = [(stdout, "⚠️ Non-UTF8 bytes replaced in " +:+ file_path)]
           end).
Proof.
  split; [apply extract_code_chunks_unreadable|].
  intros data Hread. destruct (decoded_text_encodes data) as [encoded Hencode].
  exists (decoded_text data), encoded, (diagnostics file_path data).
  split; [done|]. split; [by apply extract_code_chunks_readable|].
  unfold decoded_text, diagnostics.
  destruct (codec.decode codec.strict data) as [text|e] eqn:Hstrict; [done|].
  destruct (codec_properties.decode_replace_marks data e Hstrict) as (text & Hreplace & Hmark).
  exists text. by rewrite Hreplace.
Qed.

(** The two outcomes on the sample files: [Broken.swift] holds the byte
    0xFF, [Nope.swift] does not exist. *)
Example loader_outcomes_samples :
  extract_code_chunks (platform := samples.platform) "Broken.swift"
  = ([(stdout, "⚠️ Non-UTF8 bytes replaced in Broken.swift")], Returns [])
  ∧ codec.decode codec.replace samples.broken_bytes
    = Returns (codec.text_of_string "let " ++ [0xFFFD; 10])
  ∧ extract_code_chunks (platform := samples.platform) "Nope.swift"
    = ([], Raises (OSError "[Errno 2] No such file or directory: 'Nope.swift'")).
Proof. repeat split; by vm_compute. Qed.

(** C9. For a readable file whose tree has no node of an extractable
    kind, the extraction returns the empty list and raises nothing; the
    empty file is such a file whenever the tree of the empty buffer has
    no such node, and nothing is printed for it. *)
Theorem no_declaration_no_chunk {platform : Platform} file_path data :
  read_bytes (str (Path file_path)) = Returns data →
  (∀ code root, parsed file_path code root → declarations root = []) →
  (∃ code root, parsed file_path code root)
  ∧ extract_code_chunks file_path = (diagnostics file_path data, Returns [])
  ∧ (data = [] → extract_code_chunks file_path = ([], Returns [])).
Proof.
  intros Hread Hnone. destruct (decoded_text_encodes data) as [encoded Hencode].
  assert (parsed file_path (decoded_text data) (parse encoded)) as Hparsed.
  { by exists data, encoded. }
  split; [by eexists _, _|].
  assert (extract_code_chunks file_path = (diagnostics file_path data, Returns [])) as Hrun.
  { rewrite (extract_code_chunks_readable _ _ _ Hread Hencode).
    by rewrite extract_declarations, (Hnone _ _ Hparsed). }
  split; [done|]. intros ->. by rewrite Hrun.
Qed.

Lemma no_declaration_no_chunk_witness :
  (∃ code root, parsed (platform := samples.platform) "Empty.swift" code root)
  ∧ extract_code_chunks (platform := samples.platform) "Empty.swift"
    = (diagnostics "Empty.swift" [], Returns [])
  ∧ (@nil N = [] → extract_code_chunks (platform := samples.platform) "Empty.swift"
               = ([], Returns [])).
Proof.
  apply (no_declaration_no_chunk (platform := samples.platform) "Empty.swift" []).
  - reflexivity.
  - intros code root (data & encoded & [= <-] & -> & [= <-] & ->). reflexivity.
Defined.

(** The same on a file that is not empty: [Plain.swift] holds an import,
    whose kind [import_declaration] is not an extracted one. *)
Example no_declaration_plain :
  extract_code_chunks (platform := samples.platform) "Plain.swift" = ([], Returns [])
  ∧ declarations samples.plain_tree = []
  ∧ length (preorder samples.plain_tree) = 4%nat.
Proof. repeat split; by vm_compute. Qed.

(** *** The text of a chunk *)

(** A text of ASCII characters is its own encoding. *)
Lemma encode_ascii text :
  Forall (λ c, c < 0x80) text → codec.encode text = Returns text.
Proof.
  induction 1 as [|c text Hc _ IH]; [done|].
  cbn [codec.encode]. rewrite IH. unfold codec.encode_char.
  apply N.ltb_lt in Hc. by rewrite Hc.
Qed.

(** As long as the source is ASCII, character offsets and byte offsets
    are the same and the text of a chunk is the text of its node. *)
Lemma chunk_text_exact_ascii path code node data :
  Forall (λ c, c < 0x80) code →
  codec.encode code = Returns data →
  byte_exact data node (make_chunk path code node).
Proof.
  intros Hascii Hencode. rewrite (encode_ascii code Hascii) in Hencode.
  injection Hencode as <-. unfold byte_exact, node_bytes. cbn [chunk_text make_chunk].
  unfold get_text. apply encode_ascii. unfold slice.
  by apply Forall_take, Forall_drop.
Qed.

(** C1, on [Cafe.swift].  The function occupies bytes 6 to 17 of the
    file, which decode to [func f() {}]; the text of its chunk is
    characters 6 to 17 of the decoded source, [unc f() {}] and a line
    feed, because the two-byte character before it counts once in the
    decoded text. *)
Theorem chunk_text_shifted_after_non_ascii :
  ∃ chunk,
    extract_code_chunks (platform := samples.platform) "Cafe.swift"
    = ([], Returns [chunk])
    ∧ chunk = make_chunk (samples.swift_path "Cafe.swift") samples.cafe_text
                samples.cafe_function
    ∧ codec.encode samples.cafe_text = Returns (samples.bytes_of samples.cafe_text)
    ∧ codec.decode codec.strict
        (node_bytes (samples.bytes_of samples.cafe_text) samples.cafe_function)
      = Returns (codec.text_of_string "func f() {}")
    ∧ chunk_text chunk = codec.text_of_string "unc f() {}" ++ [10]
    ∧ ¬ byte_exact (samples.bytes_of samples.cafe_text) samples.cafe_function chunk.
Proof.
  eexists. split; [by vm_compute|]. split; [by vm_compute|].
  split; [by vm_compute|]. split; [by vm_compute|]. split; [by vm_compute|].
  unfold byte_exact. vm_compute. discriminate.
Qed.

(** *** Further properties of the chunks *)

(** X1. Every chunk of an extraction carries the same values for the
    fields that do not depend on the node: the language and framework
    constants, the stem and the path of the file, no function name; and
    its tags are one of the three normalised kinds, alone. *)
Theorem chunk_metadata_uniform {platform : Platform} file out chunks chunk :
  extract_code_chunks file = (out, Returns chunks) →
  chunk ∈ chunks →
  language chunk = "swift"
  ∧ framework chunk = "swiftui"
  ∧ module chunk = stem (Path file)
  ∧ function chunk = None
  ∧ file_path chunk = str (Path file)
  ∧ (tags chunk = ["class"] ∨ tags chunk = ["struct"] ∨ tags chunk = ["function"]).
Proof.
  intros (code & root & Hparsed & ->)%extract_code_chunks_returns
         (node & -> & Hin & Hkind)%elem_of_extract.
  do 5 (split; [done|]). cbn [tags make_chunk].
  destruct (is_extractable_cases _ Hkind) as [->|[->| ->]]; vm_compute; tauto.
Qed.

Lemma chunk_metadata_uniform_witness :
  let chunk := make_chunk (samples.swift_path "Demo.swift") samples.demo_text
                 samples.demo_method in
  language chunk = "swift"
  ∧ framework chunk = "swiftui"
  ∧ module chunk = "Demo"
  ∧ function chunk = None
  ∧ file_path chunk = "Demo.swift"
  ∧ (tags chunk = ["class"] ∨ tags chunk = ["struct"] ∨ tags chunk = ["function"]).
Proof.
  intros chunk.
  apply (chunk_metadata_uniform (platform := samples.platform) "Demo.swift" []
           (extract samples.demo_tree samples.demo_text
              (samples.swift_path "Demo.swift")) chunk).
  - by vm_compute.
  - vm_compute. right. left.
Defined.

(** X2. The text of a chunk is always a contiguous piece of the decoded
    source, whatever the offsets of the node: offsets beyond the end are
    clamped and an end before the start gives the empty text, nothing
    raises. *)
Theorem chunk_text_is_infix path code node :
  ∃ before after,
    code = before ++ chunk_text (make_chunk path code node) ++ after
    ∧ length before = (N.to_nat (start_byte node) `min` length code)%nat
    ∧ length (chunk_text (make_chunk path code node))
      = (N.to_nat (end_byte node) `min` length code
         - N.to_nat (start_byte node))%nat.
Proof.
  cbn [chunk_text make_chunk]. unfold get_text, slice.
  set (s := N.to_nat (start_byte node)). set (e := N.to_nat (end_byte node)).
  exists (take s code), (drop (e - s) (drop s code)).
  rewrite take_drop, take_drop, length_take, length_take, length_drop.
  split; [done|]. split; lia.
Qed.

(** The encoding of a text that starts with ASCII characters starts
    with those characters. *)
Lemma encode_app text1 text2 data :
  codec.encode (text1 ++ text2) = Returns data →
  ∃ data1 data2,
    codec.encode text1 = Returns data1 ∧ codec.encode text2 = Returns data2
    ∧ data = data1 ++ data2.
Proof.
  revert data. induction text1 as [|c text1 IH]; intros data; cbn [app codec.encode].
  { intros Hdata. by exists [], data. }
  destruct (codec.encode_char c) as [bytes|] eqn:Hchar; [|done].
  destruct (codec.encode (text1 ++ text2)) as [rest|] eqn:Hrest; [|done].
  intros [= <-]. destruct (IH rest eq_refl) as (data1 & data2 & -> & -> & ->).
  exists (bytes ++ data1), data2. by rewrite (assoc_L (++)).
Qed.

Lemma take_encode_ascii code data (n : nat) :
  codec.encode code = Returns data →
  Forall (λ c, c < 0x80) (take n code) →
  take n data = take n code.
Proof.
  intros Hencode Hascii. rewrite <-(take_drop n code) in Hencode.
  apply encode_app in Hencode as (data1 & data2 & Hdata1 & Hdata2 & ->).
  rewrite (encode_ascii _ Hascii) in Hdata1. injection Hdata1 as <-.
  destruct (decide (n ≤ length code)%nat) as [Hle|Hgt].
  - by rewrite take_app_length' by (rewrite length_take; lia).
  - rewrite drop_ge in Hdata2 by lia. injection Hdata2 as <-.
    by rewrite app_nil_r, take_take, Nat.min_id.
Qed.

(** X3. The text of a chunk is the exact text of its node whenever the
    source is ASCII up to the end of the node; characters of more than
    one byte after the node do no harm. *)
Theorem chunk_text_exact_before_non_ascii path code data node :
  codec.encode code = Returns data →
  Forall (λ c, c < 0x80) (take (N.to_nat (end_byte node)) code) →
  byte_exact data node (make_chunk path code node).
Proof.
  intros Hencode Hascii. unfold byte_exact, node_bytes.
  cbn [chunk_text make_chunk]. unfold get_text, slice.
  set (s := N.to_nat (start_byte node)) in *. set (e := N.to_nat (end_byte node)) in *.
  destruct (decide (s ≤ e)%nat) as [Hle|Hgt].
  - rewrite !take_drop_commute. replace (s + (e - s))%nat with e by lia.
    rewrite (take_encode_ascii code data e Hencode Hascii).
    apply encode_ascii. by apply Forall_drop.
  - by replace (e - s)%nat with 0%nat by lia.
Qed.

Lemma chunk_text_exact_before_non_ascii_witness :
  byte_exact (samples.bytes_of (samples.demo_text ++ [0xE9; 10])) samples.demo_method
    (make_chunk (samples.swift_path "Demo.swift") (samples.demo_text ++ [0xE9; 10])
       samples.demo_method).
Proof.
  apply chunk_text_exact_before_non_ascii.
  - by vm_compute.
  - apply (bool_decide_unpack _). by vm_compute.
Defined.

(** X4. The identifiers of the chunks of a walk are pairwise distinct
    exactly when no two extracted nodes share kind and start row: two
    declarations of one kind that start on the same row get the same
    identifier. *)
Theorem chunk_ids_distinct_iff path code root :
  NoDup (chunk_id <$> extract root code path)
  ↔ NoDup (declaration_key <$> declarations root).
Proof.
  split; [|apply extract_ids_distinct].
  rewrite extract_declarations, <-list_fmap_compose.
  change (NoDup (identifier path ∘ declaration_key <$> declarations root)
          → NoDup (declaration_key <$> declarations root)).
  rewrite list_fmap_compose. apply NoDup_fmap_1.
Qed.

(** Decimal renderings hold digits only, so no hyphen. *)
Lemma pretty_N_go_no_hyphen (x : N) (s : string) :
  has_char "-" s = false → has_char "-" (pretty_N_go x s) = false.
Proof.
  revert s. induction (N.lt_wf_0 x) as [x _ IH]; intros s Hs.
  destruct (decide (0 < x)) as [Hx|Hx].
  - rewrite pretty_N_go_step by done. apply IH; [by apply N.div_lt|].
    cbn [has_char]. rewrite Hs, orb_false_r.
    unfold pretty_N_char. by repeat case_match.
  - assert (x = 0) as -> by lia. by rewrite pretty_N_go_0.
Qed.

Lemma pretty_N_no_hyphen (x : N) : has_char "-" (pretty x) = false.
Proof.
  unfold pretty, pretty_N. case_decide; [done|]. by apply pretty_N_go_no_hyphen.
Qed.

(** Two texts without hyphen, each followed by a hyphen and more: equal
    wholes have equal parts. *)
Lemma hyphen_split (a b c d : string) :
  has_char "-" a = false → has_char "-" b = false →
  a +:+ "-" +:+ c = b +:+ "-" +:+ d → a = b ∧ c = d.
Proof.
  revert b. induction a as [|x a IH]; intros [|y b] Ha Hb Heq.
  - change (String "-" c = String "-" d) in Heq. by injection Heq as ->.
  - change (String "-" c = String y (b +:+ "-" +:+ d)) in Heq.
    injection Heq as <- _. cbn in Hb. done.
  - change (String x (a +:+ "-" +:+ c) = String "-" d) in Heq.
    injection Heq as -> _. cbn in Ha. done.
  - change (String x (a +:+ "-" +:+ c) = String y (b +:+ "-" +:+ d)) in Heq.
    injection Heq as -> Heq.
    cbn [has_char] in Ha, Hb. apply orb_false_iff in Ha as [_ Ha], Hb as [_ Hb].
    by destruct (IH b Ha Hb Heq) as [-> ->].
Qed.

(** X5. The [lines] text of a chunk determines its two line numbers:
    chunks with the same [lines] have the same start and end line. *)
Theorem lines_determine_span path code node path' code' node' :
  lines (make_chunk path code node) = lines (make_chunk path' code' node') →
  start_line (make_chunk path code node) = start_line (make_chunk path' code' node')
  ∧ end_line (make_chunk path code node) = end_line (make_chunk path' code' node').
Proof.
  cbn [lines start_line end_line make_chunk]. intros Heq.
  apply hyphen_split in Heq as [Hs He]; [|apply pretty_N_no_hyphen..].
  by apply (inj pretty) in Hs, He.
Qed.

Lemma lines_determine_span_witness :
  let path := samples.swift_path "Demo.swift" in
  start_line (make_chunk path samples.demo_text samples.demo_method)
  = start_line (make_chunk path [] (mkNode "struct_declaration" 0 0 (1, 0) (1, 9) []))
  ∧ end_line (make_chunk path samples.demo_text samples.demo_method)
    = end_line (make_chunk path [] (mkNode "struct_declaration" 0 0 (1, 0) (1, 9) [])).
Proof.
  intros path. apply lines_determine_span. by vm_compute.
Defined.

(** *** What the parser is given *)

(** X6. For a file that is valid UTF-8 and holds no carriage return, the
    buffer handed to the parser is the content of the file, byte for
    byte, so the byte offsets of the nodes are offsets into the file;
    and nothing is printed. *)
Theorem parser_sees_file_bytes {platform : Platform} file data text :
  read_bytes (str (Path file)) = Returns data →
  codec.decode codec.strict data = Returns text →
  13 ∉ data →
  parsed file text (parse data)
  ∧ extract_code_chunks file = ([], Returns (extract (parse data) text (Path file))).
Proof.
  intros Hread Hstrict Hcr.
  assert (13 ∉ text) as Hcr'.
  { intros Hin. apply Hcr. by apply (codec_properties.decode_ascii_elem data text). }
  assert (decoded_text data = text) as Htext.
  { unfold decoded_text. rewrite Hstrict.
    by apply codec_properties.universal_newlines_id. }
  assert (codec.encode (decoded_text data) = Returns data) as Hencode.
  { rewrite Htext. by apply codec_properties.encode_decode. }
  split.
  - exists data, data. by rewrite <-Htext.
  - rewrite (extract_code_chunks_readable _ _ _ Hread Hencode), Htext.
    unfold diagnostics. by rewrite Hstrict.
Qed.

Lemma parser_sees_file_bytes_witness :
  parsed (platform := samples.platform) "Cafe.swift" samples.cafe_text
    (@parse samples.platform (samples.bytes_of samples.cafe_text))
  ∧ extract_code_chunks (platform := samples.platform) "Cafe.swift"
    = ([], Returns (extract (@parse samples.platform (samples.bytes_of samples.cafe_text))
                      samples.cafe_text (@Path samples.platform "Cafe.swift"))).
Proof.
  apply (parser_sees_file_bytes (platform := samples.platform) "Cafe.swift").
  - reflexivity.
  - by vm_compute.
  - apply (bool_decide_unpack _). by vm_compute.
Defined.

(** X7. Whatever the bytes of a readable file, the buffer handed to the
    parser is valid UTF-8 and decodes, strictly, to the very text that
    the chunks are cut from. *)
Theorem parser_buffer_decodes_to_code {platform : Platform} file code root :
  parsed file code root →
  ∃ encoded,
    root = parse encoded
    ∧ codec.encode code = Returns encoded
    ∧ codec.decode codec.strict encoded = Returns code.
Proof.
  intros (data & encoded & Hread & -> & Hencode & ->). exists encoded.
  do 2 (split; [done|]). apply codec_properties.decode_encode; [|done].
  unfold decoded_text.
  destruct (codec.decode codec.strict data) as [text|e] eqn:Hstrict.
  - eapply codec_properties.universal_newlines_scalar,
      codec_properties.decode_scalar; eauto.
  - destruct (codec_properties.decode_replace_returns data) as [text Hreplace].
    rewrite Hreplace.
    eapply codec_properties.universal_newlines_scalar,
      codec_properties.decode_scalar; eauto.
Qed.

Lemma parser_buffer_decodes_to_code_witness :
  ∃ encoded,
    @parse samples.platform
      (samples.bytes_of (codec.text_of_string "let " ++ [0xFFFD; 10]))
    = @parse samples.platform encoded
    ∧ codec.encode (codec.text_of_string "let " ++ [0xFFFD; 10]) = Returns encoded
    ∧ codec.decode codec.strict encoded
      = Returns (codec.text_of_string "let " ++ [0xFFFD; 10]).
Proof.
  apply (parser_buffer_decodes_to_code (platform := samples.platform) "Broken.swift").
  exists samples.broken_bytes, (samples.bytes_of (codec.text_of_string "let " ++ [0xFFFD; 10])).
  repeat split; by vm_compute.
Defined.

(** X8. No chunk of an extraction holds a carriage return: the file is
    read in text mode, which turns CR LF and CR into LF before anything
    is cut. *)
Theorem chunk_text_has_no_cr {platform : Platform} file out chunks chunk :
  extract_code_chunks file = (out, Returns chunks) →
  chunk ∈ chunks →
  13 ∉ chunk_text chunk.
Proof.
  intros (code & root & (data & encoded & Hread & -> & _) & ->)%extract_code_chunks_returns
         (node & -> & _)%elem_of_extract.
  cbn [chunk_text make_chunk]. unfold get_text, slice.
  intros Hin%subseteq_take%subseteq_drop. revert Hin.
  unfold decoded_text.
  destruct (codec.decode codec.strict data); [apply codec_properties.universal_newlines_no_cr|].
  destruct (codec.decode codec.replace data); [apply codec_properties.universal_newlines_no_cr|].
  apply not_elem_of_nil.
Qed.

Lemma chunk_text_has_no_cr_witness :
  13 ∉ chunk_text
         (make_chunk (samples.swift_path "Dos.swift")
            (codec.text_of_string "func f() {}" ++ [10])
            (mkNode "function_declaration" 0 11 (0, 0) (0, 11) [])).
Proof.
  apply (chunk_text_has_no_cr (platform := dos_sample.dos_platform) "Dos.swift" []
           [make_chunk (samples.swift_path "Dos.swift")
              (codec.text_of_string "func f() {}" ++ [10])
              (mkNode "function_declaration" 0 11 (0, 0) (0, 11) [])]).
  - by vm_compute.
  - left.
Defined.

(** On [Dos.swift] the parser is given twelve bytes where the file holds
    thirteen. *)
Example dos_buffer_is_shorter :
  length dos_sample.dos_bytes = 13%nat
  ∧ codec.encode (decoded_text dos_sample.dos_bytes)
    = Returns (codec.text_of_string "func f() {}" ++ [10]).
Proof. split; by vm_compute. Qed.

End chunker_properties.

(** ** Properties of the query command *)
Module cli_properties.
Import query_cli listing.

Section cli.
Context {retrieval : Retrieval}.

(** What [query_racag_cli] does in each of the cases of its two calls. *)
Lemma query_embed_raises question top_k e :
  embed_query question = Raises e →
  query_racag_cli question top_k
  = if is_Exception e then ([], Returns (failure question (exception_str e)))
    else ([], Raises e).
Proof.
  intros Hembed. unfold query_racag_cli, failure. rewrite Hembed.
  by destruct e.
Qed.

Lemma query_search_raises question top_k v e :
  embed_query question = Returns v →
  semantic_search v top_k = Raises e →
  query_racag_cli question top_k
  = if is_Exception e then ([], Returns (failure question (exception_str e)))
    else ([], Raises e).
Proof.
  intros Hembed Hsearch. unfold query_racag_cli, failure. rewrite Hembed. cbn.
  rewrite Hsearch. by destruct e.
Qed.

Lemma query_returns question top_k v hits :
  embed_query question = Returns v →
  semantic_search v top_k = Returns hits →
  query_racag_cli question top_k
  = ([], Returns {| success := true;
                    query := question;
                    results_count := N.of_nat (length hits);
                    results := hits;
                    error := None;
                    message := "Retrieved " +:+ pretty (N.of_nat (length hits))
                               +:+ " relevant chunks" |}).
Proof.
  intros Hembed Hsearch. unfold query_racag_cli. rewrite Hembed. cbn.
  by rewrite Hsearch.
Qed.

(** An exception that is not an [Exception] is not caught. *)
Lemma query_interrupted question top_k :
  embed_query question = Raises KeyboardInterrupt →
  query_racag_cli question top_k = ([], Raises KeyboardInterrupt).
Proof. intros Hembed. by rewrite (query_embed_raises _ _ _ Hembed). Qed.

(** The loop prints the three lines of every entry and ends normally. *)
Lemma for_each_print_entry (hits : list (Hit Score)) (start : N) :
  for_each (enumerate hits start) print_entry
  = (flat_map (λ entry, entry_lines entry.1 entry.2) (enumerate hits start),
     Returns tt).
Proof.
  revert start. induction hits as [|hit hits IH]; intros start; [done|].
  cbn [enumerate for_each flat_map]. cbn. by rewrite IH.
Qed.

Lemma enumerate_length {A} (l : list A) (start : N) :
  length (enumerate l start) = length l.
Proof. revert start. induction l as [|x l IH]; intros; cbn; [done|]. by rewrite IH. Qed.

Lemma enumerate_lookup {A} (l : list A) (start : N) (i : nat) :
  enumerate l start !! i = (λ x, (start + N.of_nat i, x)) <$> l !! i.
Proof.
  revert start i. induction l as [|x l IH]; intros start [|i]; cbn; try done.
  - by rewrite N.add_0_r.
  - rewrite IH. destruct (l !! i); cbn; [|done]. do 2 f_equal. lia.
Qed.

(** What [main] does with the result of the query. *)
Lemma main_failure args question message :
  query_racag_cli (arg_query args) (arg_top_k args)
  = ([], Returns (failure question message)) →
  main args
  = (match arg_format args with
     | json => [(stdout, json_dumps (failure question message))]
     | text => [(stderr, "Error: Query failed: " +:+ message)]
     end,
     Raises (SystemExit 1)).
Proof. intros Hquery. unfold main. rewrite Hquery. by destruct (arg_format args). Qed.

Lemma slice_first {A} (l : list A) (n : nat) : slice l 0 (N.of_nat n) = take n l.
Proof. unfold slice. by rewrite Nat2N.id, Nat.sub_0_r. Qed.

Lemma main_success args v hits :
  embed_query (arg_query args) = Returns v →
  semantic_search v (arg_top_k args) = Returns hits →
  main args
  = (match arg_format args with
     | json =>
         [(stdout,
           json_dumps {| success := true;
                         query := arg_query args;
                         results_count := N.of_nat (length hits);
                         results := hits;
                         error := None;
                         message := "Retrieved " +:+ pretty (N.of_nat (length hits))
                                    +:+ " relevant chunks" |})]
     | text =>
         header_lines (arg_query args) (length hits)
         ++ flat_map (λ entry, entry_lines entry.1 entry.2)
              (enumerate (take DISPLAY_LIMIT hits) 1)
     end,
     Raises (SystemExit 0)).
Proof.
  intros Hembed Hsearch. unfold main.
  rewrite (query_returns _ _ _ _ Hembed Hsearch).
  destruct (arg_format args); [done|].
  cbn [mbind io_bind success results results_count query].
  change 10 with (N.of_nat DISPLAY_LIMIT). rewrite slice_first.
  cbn. rewrite for_each_print_entry. cbn. by rewrite app_nil_r.
Qed.

(** C6. When the embedding or the search raises an exception (an
    instance of [Exception]), the query returns the failure result: the
    question, a count of zero, no results, and an error text that is the
    text of the exception, also found in the message.  [main] then ends
    with exit status 1, whereas it ends with status 0 when both calls
    return. *)
Theorem capability_failure_is_structured question top_k underlying :
  embed_query question = Raises (Exception underlying)
  ∨ (∃ v, embed_query question = Returns v
          ∧ semantic_search v top_k = Raises (Exception underlying)) →
  ∃ result,
    query_racag_cli question top_k = ([], Returns result)
    ∧ success result = false
    ∧ query result = question
    ∧ results_count result = 0
    ∧ results result = []
    ∧ error result = Some underlying
    ∧ message result = "Query failed: " +:+ underlying
    ∧ main (mkArgs question top_k json)
      = ([(stdout, json_dumps result)], Raises (SystemExit 1))
    ∧ main (mkArgs question top_k text)
      = ([(stderr, "Error: " +:+ message result)], Raises (SystemExit 1))
    ∧ ∀ question' v hits format,
        embed_query question' = Returns v →
        semantic_search v top_k = Returns hits →
        (main (mkArgs question' top_k format)).2 = Raises (SystemExit 0).
Proof.
  intros Hraise. exists (failure question underlying).
  assert (query_racag_cli question top_k
          = ([], Returns (failure question underlying))) as Hquery.
  { destruct Hraise as [Hembed|(v & Hembed & Hsearch)].
    - by rewrite (query_embed_raises _ _ _ Hembed).
    - by rewrite (query_search_raises _ _ _ _ Hembed Hsearch). }
  repeat split; try done.
  - by rewrite (main_failure (mkArgs question top_k json) question underlying).
  - by rewrite (main_failure (mkArgs question top_k text) question underlying).
  - intros question' v hits format Hembed Hsearch.
    by rewrite (main_success (mkArgs question' top_k format) v hits).
Qed.


(** *** Further properties of the query command *)

(** The three ways a query can go. *)
Lemma query_cases question top_k :
  (∃ v hits, embed_query question = Returns v
             ∧ semantic_search v top_k = Returns hits)
  ∨ (∃ e, fails_with question top_k e).
Proof.
  unfold fails_with. destruct (embed_query question) as [v|e] eqn:Hembed; [|by eauto].
  destruct (semantic_search v top_k) as [hits|e] eqn:Hsearch; [left|right]; eauto.
Qed.

Lemma query_fails question top_k e :
  fails_with question top_k e →
  query_racag_cli question top_k
  = if is_Exception e then ([], Returns (failure question (exception_str e)))
    else ([], Raises e).
Proof.
  intros [Hembed|(v & Hembed & Hsearch)].
  - by apply query_embed_raises.
  - by apply (query_search_raises _ _ v).
Qed.

(** X9. Whatever [query_racag_cli] returns is well formed: it echoes the
    question, the count is the number of results, [success] holds
    exactly when there is no error text, a failure has no results and a
    message that ends with the error text, and nothing is printed. *)
Theorem response_well_formed question top_k out result :
  query_racag_cli question top_k = (out, Returns result) →
  out = []
  ∧ query result = question
  ∧ results_count result = N.of_nat (length (results result))
  ∧ (success result = true ↔ error result = None)
  ∧ (success result = true →
     message result
     = "Retrieved " +:+ pretty (results_count result) +:+ " relevant chunks")
  ∧ (success result = false →
     results result = []
     ∧ ∃ text, error result = Some text
               ∧ message result = "Query failed: " +:+ text).
Proof.
  destruct (query_cases question top_k) as [(v & hits & Hembed & Hsearch)|[e Hfails]].
  - rewrite (query_returns _ _ _ _ Hembed Hsearch). intros [= <- <-].
    cbn. repeat split; try done.
  - rewrite (query_fails _ _ _ Hfails). destruct (is_Exception e); [|done].
    intros [= <- <-]. cbn. repeat split; try done. by eexists.
Qed.

(** X10. An exception that is not an instance of [Exception] (an
    interrupt, a [SystemExit]) raised by the embedding or by the search
    is not turned into a failure result: the query raises it, and so
    does [main], in either format, without printing anything. *)
Theorem base_exception_propagates question top_k e format :
  fails_with question top_k e →
  is_Exception e = false →
  query_racag_cli question top_k = ([], Raises e)
  ∧ main (mkArgs question top_k format) = ([], Raises e).
Proof.
  intros Hfails Hbase.
  assert (query_racag_cli question top_k = ([], Raises e)) as Hquery.
  { by rewrite (query_fails _ _ _ Hfails), Hbase. }
  split; [done|]. unfold main. cbn [arg_query arg_top_k]. by rewrite Hquery.
Qed.

(** How [main] ends in each of the three cases. *)
Lemma main_cases args :
  (∃ v hits,
     embed_query (arg_query args) = Returns v
     ∧ semantic_search v (arg_top_k args) = Returns hits
     ∧ (main args).2 = Raises (SystemExit 0)
     ∧ (∀ line, (stderr, line) ∉ (main args).1))
  ∨ (∃ text,
       fails_with (arg_query args) (arg_top_k args) (Exception text)
       ∧ main args
         = (match arg_format args with
            | json => [(stdout, json_dumps (failure (arg_query args) text))]
            | text => [(stderr, "Error: Query failed: " +:+ text)]
            end, Raises (SystemExit 1)))
  ∨ (∃ e,
       fails_with (arg_query args) (arg_top_k args) e
       ∧ is_Exception e = false
       ∧ main args = ([], Raises e)).
Proof.
  destruct (query_cases (arg_query args) (arg_top_k args))
    as [(v & hits & Hembed & Hsearch)|[e Hfails]].
  - left. exists v, hits. do 2 (split; [done|]).
    rewrite (main_success args v hits Hembed Hsearch). split; [done|].
    intros line. cbn [fst]. destruct (arg_format args).
    + by intros [=]%list_elem_of_singleton.
    + intros [Hin|Hin]%elem_of_app.
      * unfold header_lines in Hin. apply elem_of_cons in Hin as [[=]|Hin].
        by apply list_elem_of_singleton in Hin as [=].
      * apply chunker_properties.elem_of_flat_map in Hin as ([rank hit] & _ & Hline).
        unfold entry_lines in Hline. cbn in Hline.
        repeat (apply elem_of_cons in Hline as [[=]|Hline]).
        by apply elem_of_nil in Hline.
  - right. destruct e as [text| |code].
    + left. exists text. split; [done|].
      apply (main_failure args (arg_query args) text).
      by rewrite (query_fails _ _ _ Hfails).
    + right. exists KeyboardInterrupt. do 2 (split; [done|]).
      destruct args as [question top_k format].
      by apply (base_exception_propagates question top_k KeyboardInterrupt format).
    + right. exists (SystemExit code). do 2 (split; [done|]).
      destruct args as [question top_k format].
      by apply (base_exception_propagates question top_k (SystemExit code) format).
Qed.

(** X12. The two streams are kept apart: a line goes to the error stream
    only in the text format when a call failed with an [Exception], and
    it is then the only line; with the structured format nothing ever
    goes to the error stream; and in the text format a line on the
    standard output means that both calls returned. *)
Theorem stream_discipline args line :
  ((stderr, line) ∈ (main args).1 →
     arg_format args = text
     ∧ ∃ text, fails_with (arg_query args) (arg_top_k args) (Exception text)
               ∧ main args = ([(stderr, "Error: Query failed: " +:+ text)],
                              Raises (SystemExit 1)))
  ∧ (arg_format args = text → (stdout, line) ∈ (main args).1 →
       ∃ v hits, embed_query (arg_query args) = Returns v
                 ∧ semantic_search v (arg_top_k args) = Returns hits).
Proof.
  destruct (main_cases args)
    as [(v & hits & Hembed & Hsearch & _ & Herr)
       |[(text & Hfails & Hrun)|(e & _ & _ & Hrun)]].
  - split; [by intros ?%Herr|]. eauto.
  - rewrite Hrun. cbn [fst]. split.
    + destruct (arg_format args).
      * by intros [=]%list_elem_of_singleton.
      * intros _. eauto.
    + intros ->. by intros [=]%list_elem_of_singleton.
  - rewrite Hrun. cbn [fst]. split; [by intros ?%elem_of_nil|].
    by intros _ ?%elem_of_nil.
Qed.

(** X13. A record without keys is listed with the defaults, and listing
    it raises nothing: in the text format, a result among the first ten
    that has neither score nor metadata is printed as score 0.000, path
    [unknown] and lines [?-?], under its rank. *)
Theorem listing_defaults args v hits (i : nat) :
  arg_format args = text →
  embed_query (arg_query args) = Returns v →
  semantic_search v (arg_top_k args) = Returns hits →
  hits !! i = Some (mkHit None None) →
  (i < 10)%nat →
  (stdout, pretty (N.of_nat (i + 1)) +:+ ". [0.000] unknown") ∈ (main args).1
  ∧ (stdout, "   Lines ?-?") ∈ (main args).1
  ∧ (main args).2 = Raises (SystemExit 0).
Proof.
  intros Hformat Hembed Hsearch Hhit Hi.
  rewrite (main_success args v hits Hembed Hsearch), Hformat. cbn [fst snd].
  assert ((N.of_nat (i + 1), mkHit None None)
          ∈ enumerate (take DISPLAY_LIMIT hits) 1) as Hentry.
  { apply list_elem_of_lookup. exists i.
    rewrite enumerate_lookup, lookup_take_lt by done. rewrite Hhit. cbn.
    do 2 f_equal. lia. }
  split; [|split; [|done]].
  - apply elem_of_app. right. apply chunker_properties.elem_of_flat_map.
    eexists. split; [exact Hentry|]. cbn. left.
  - apply elem_of_app. right. apply chunker_properties.elem_of_flat_map.
    eexists. split; [exact Hentry|]. cbn. right. left.
Qed.

End cli.

#[local] Existing Instance sample_retrieval.

(** The failure on the sample retrieval layer, where the empty question
    makes the embedding raise. *)
Lemma capability_failure_is_structured_witness :
  ∃ result,
    query_racag_cli (retrieval := sample_retrieval) "" 5 = ([], Returns result)
    ∧ success result = false
    ∧ query result = ""
    ∧ results_count result = 0
    ∧ results result = []
    ∧ error result = Some "empty query"
    ∧ message result = "Query failed: " +:+ "empty query"
    ∧ main (mkArgs "" 5 json)
      = ([(stdout, json_dumps result)], Raises (SystemExit 1))
    ∧ main (mkArgs "" 5 text)
      = ([(stderr, "Error: " +:+ message result)], Raises (SystemExit 1))
    ∧ ∀ question' v hits format,
        embed_query question' = Returns v →
        semantic_search v 5 = Returns hits →
        (main (mkArgs question' 5 format)).2 = Raises (SystemExit 0).
Proof.
  apply (capability_failure_is_structured (retrieval := sample_retrieval) "" 5 "empty query").
  left. reflexivity.
Defined.

(** C6, as first stated for every raise: an exception that is not an
    instance of [Exception] is not caught.  On the layer that is
    interrupted while it embeds, the query returns no result at all; it
    raises the interrupt. *)
Lemma capability_failure_escapes :
  fails_with (retrieval := interrupted_retrieval) "anything" 5 KeyboardInterrupt
  ∧ query_racag_cli (retrieval := interrupted_retrieval) "anything" 5
    = ([], Raises KeyboardInterrupt)
  ∧ ¬ ∃ out result,
        query_racag_cli (retrieval := interrupted_retrieval) "anything" 5
        = (out, Returns result).
Proof.
  split; [by left|]. split; [by vm_compute|].
  intros (out & result & Hrun). vm_compute in Hrun. discriminate Hrun.
Qed.


(** The listing of that run has two header lines and thirty entry lines,
    the last entry being the tenth record. *)
Example text_listing_sample :
  let run := main (retrieval := sample_retrieval) (mkArgs "authentication flow" 20 text) in
  length run.1 = 32%nat
  ∧ run.1 !! 1%nat = Some (stdout, "Results: 12" +:+ LF)
  ∧ run.1 !! 2%nat = Some (stdout, "1. [0.990] File0.swift")
  ∧ run.1 !! 29%nat = Some (stdout, "10. [0.630] File9.swift")
  ∧ run.1 !! 30%nat = Some (stdout, "   Lines 1-3")
  ∧ run.2 = Raises (SystemExit 0).
Proof. repeat split; by vm_compute. Qed.


(** A well-formed success on the sample retrieval layer. *)
Lemma response_well_formed_witness :
  let result :=
    {| success := true;
       query := "authentication flow";
       results_count := 3;
       results := sample_hit <$> seq 0 3;
       error := None;
       message := "Retrieved 3 relevant chunks" |} in
  @nil (stream * string) = []
  ∧ query result = "authentication flow"
  ∧ results_count result = N.of_nat (length (results result))
  ∧ (success result = true ↔ error result = None)
  ∧ (success result = true →
     message result
     = "Retrieved " +:+ pretty (results_count result) +:+ " relevant chunks")
  ∧ (success result = false →
     results result = []
     ∧ ∃ text, error result = Some text
               ∧ message result = "Query failed: " +:+ text).
Proof.
  intros result.
  apply (response_well_formed (retrieval := sample_retrieval)
           "authentication flow" 3 [] result).
  by vm_compute.
Defined.

(** An interrupt during the embedding ends [main] with the interrupt. *)
Lemma base_exception_propagates_witness :
  query_racag_cli (retrieval := interrupted_retrieval) "anything" 5
  = ([], Raises KeyboardInterrupt)
  ∧ main (retrieval := interrupted_retrieval) (mkArgs "anything" 5 json)
    = ([], Raises KeyboardInterrupt).
Proof.
  apply (base_exception_propagates (retrieval := interrupted_retrieval)
           "anything" 5 KeyboardInterrupt json).
  - left. reflexivity.
  - reflexivity.
Defined.

(** The first record of the sparse layer has no key at all. *)
Lemma listing_defaults_witness :
  let run := main (retrieval := sparse_retrieval) (mkArgs "anything" 5 text) in
  (stdout, pretty (N.of_nat (0 + 1)) +:+ ". [0.000] unknown") ∈ run.1
  ∧ (stdout, "   Lines ?-?") ∈ run.1
  ∧ run.2 = Raises (SystemExit 0).
Proof.
  intros run.
  apply (listing_defaults (retrieval := sparse_retrieval) (mkArgs "anything" 5 text)
           "anything"
           [ mkHit None None; mkHit (Some 500) (Some (mkMetadata None (Some "4-9"))) ]
           0); try reflexivity. cbn. lia.
Defined.

(** The whole listing of the sparse layer: the second record has a score
    and a line range but no file path. *)
Example listing_sparse :
  (main (retrieval := sparse_retrieval) (mkArgs "anything" 5 text)).1
  = [ (stdout, "Query: anything");
      (stdout, "Results: 2" +:+ LF);
      (stdout, "1. [0.000] unknown"); (stdout, "   Lines ?-?"); (stdout, "");
      (stdout, "2. [0.500] unknown"); (stdout, "   Lines 4-9"); (stdout, "") ].
Proof. by vm_compute. Qed.

End cli_properties.
